(** * Playback / highlighting sequencer of the language-learning page

    A shallow embedding of the [LanguageLearner] class: the text chunker
    [splitTextIntoChunks], the highlight sequencer
    [speakThaiWithHighlighting] with its event handlers, and the
    orchestrating [playbackCycle].
    Around them: the rendering of the translation ([displayThai]), the
    voice choice of [fallbackToWebSpeech], and the controller that turns
    keys into recordings and runs [processAudio] and [translateToThai].

    JavaScript strings are sequences of UTF-16 code units; [length] counts
    code units.  Asynchronous code is modelled by explicit state passing:
    every callback the class registers is a function on [state], and the
    host's event loop is a list of events folded over those handlers.  A
    call that can throw returns an [option], and each caller does with the
    exception what the source does: reject the promise, or give up. *)

From Stdlib Require Import List Bool Arith ZArith NArith Lia.
From Stdlib Require Import Ascii String.
Import ListNotations.

(* ================================================================== *)
(** ** JavaScript strings *)
(* ================================================================== *)

Module JS.

(** A UTF-16 code unit. *)
Definition code_unit := N.

(** A JavaScript string value. *)
Definition jsstring := list code_unit.

(** String literals of the source, written with 7-bit characters. *)
Fixpoint lit (s : string) : jsstring :=
  match s with
  | EmptyString => []
  | String a s' => N_of_ascii a :: lit s'
  end.

(** U+0020, the separator the chunker inserts. *)
Definition SP : code_unit := 32%N.

(** The class [\s] of regular expressions, which is also the set that
    [String.prototype.trim] strips: WhiteSpace and LineTerminator. *)
Definition is_ws (c : code_unit) : bool :=
  ((9 <=? c) && (c <=? 13)                (* TAB LF VT FF CR *)
   || (c =? 32)                           (* SPACE *)
   || (c =? 160)                          (* NO-BREAK SPACE *)
   || (c =? 5760)                         (* OGHAM SPACE MARK *)
   || ((8192 <=? c) && (c <=? 8202))      (* EN QUAD .. HAIR SPACE *)
   || (c =? 8232) || (c =? 8233)          (* LINE / PARAGRAPH SEPARATOR *)
   || (c =? 8239)                         (* NARROW NO-BREAK SPACE *)
   || (c =? 8287)                         (* MEDIUM MATHEMATICAL SPACE *)
   || (c =? 12288)                        (* IDEOGRAPHIC SPACE *)
   || (c =? 65279))%N.                    (* ZERO WIDTH NO-BREAK SPACE *)

(** Truthiness of a string: only the empty string is falsy. *)
Definition truthy (s : jsstring) : bool :=
  match s with [] => false | _ :: _ => true end.

(** Strict equality [===] on strings. *)
Fixpoint streq (a b : jsstring) : bool :=
  match a, b with
  | [], [] => true
  | x :: a', y :: b' => (x =? y)%N && streq a' b'
  | _, _ => false
  end.

(** Does the string begin with a whitespace code unit? *)
Definition starts_ws (s : jsstring) : bool :=
  match s with [] => false | c :: _ => is_ws c end.

Definition cons_head (c : code_unit) (l : list jsstring) : list jsstring :=
  match l with
  | [] => [[c]]
  | w :: ws => (c :: w) :: ws
  end.

(** [s.split(/\s+/)]: the pieces of [s] between maximal whitespace runs.
    A run at the very start or end leaves an empty piece there, and the
    empty string splits into one empty piece. *)
Fixpoint split_ws (s : jsstring) : list jsstring :=
  match s with
  | [] => [[]]
  | c :: s' =>
      if is_ws c
      then (if starts_ws s' then split_ws s' else [] :: split_ws s')
      else cons_head c (split_ws s')
  end.

Fixpoint drop_ws (s : jsstring) : jsstring :=
  match s with
  | [] => []
  | c :: s' => if is_ws c then drop_ws s' else s
  end.

Definition trimStart (s : jsstring) : jsstring := drop_ws s.
Definition trimEnd (s : jsstring) : jsstring := rev (drop_ws (rev s)).

(** [s.trim()]. *)
Definition trim (s : jsstring) : jsstring := trimEnd (trimStart s).

(** [l.join(" ")]. *)
Fixpoint join_sp (l : list jsstring) : jsstring :=
  match l with
  | [] => []
  | [w] => w
  | w :: ws => w ++ SP :: join_sp ws
  end.

(** [s.length] as a number. *)
Definition len (s : jsstring) : Z := Z.of_nat (List.length s).

End JS.

Import JS.

(* ================================================================== *)
(** ** TextChunker: [splitTextIntoChunks] *)
(* ================================================================== *)

(** The loop state: the array [chunks] and the variable [currentChunk]. *)
Definition chunker_state := (list jsstring * jsstring)%type.

(** One iteration of [for (const word of words)]. *)
Definition chunk_step (maxLength : Z) (st : chunker_state) (word : jsstring)
  : chunker_state :=
  let (chunks, currentChunk) := st in
  if (len (currentChunk ++ SP :: word) >? maxLength)%Z && truthy currentChunk
  then (chunks ++ [trim currentChunk], word)
  else (chunks,
        if truthy currentChunk then currentChunk ++ SP :: word else word).

(** The code after the loop: push the last running chunk when non-empty. *)
Definition chunk_finish (st : chunker_state) : list jsstring :=
  let (chunks, currentChunk) := st in
  if truthy currentChunk then chunks ++ [trim currentChunk] else chunks.

Definition splitTextIntoChunks (text : jsstring) (maxLength : Z)
  : list jsstring :=
  if (len text <=? maxLength)%Z then [text]
  else
    let words := split_ws text in
    chunk_finish (fold_left (chunk_step maxLength) words ([], [])).

(** Whitespace normalisation as the specification words it: every maximal
    whitespace run replaced by a single space, then leading and trailing
    whitespace removed.  Used only to state the reconstruction property;
    the program itself never calls it. *)
Fixpoint collapse_ws (s : jsstring) : jsstring :=
  match s with
  | [] => []
  | c :: s' =>
      if is_ws c
      then (if starts_ws s' then collapse_ws s' else SP :: collapse_ws s')
      else c :: collapse_ws s'
  end.

Definition normalize_ws (s : jsstring) : jsstring := trim (collapse_ws s).

(** The word count as the specification words it: the number of
    whitespace-delimited tokens of a text, that is of its maximal runs of
    non-whitespace code units, each counted at its last unit.  The program
    itself counts the pieces of [split(/\s+/)]. *)
Fixpoint count_tokens (s : jsstring) : nat :=
  match s with
  | [] => 0
  | c :: s' =>
      if is_ws c then count_tokens s'
      else match s' with
           | [] => 1
           | d :: _ => if is_ws d then S (count_tokens s') else count_tokens s'
           end
  end.

(* ================================================================== *)
(** ** The playback state and its effects *)
(* ================================================================== *)

(** The recorded audio ([currentAudioBlob]) is an opaque handle. *)
Definition blob := nat.

(** What the class asks of the host, in the order it asks. *)
Inductive effect : Type :=
| PlayBlob (b : blob)          (* playAudio: new Audio(objectURL(b)).play() *)
| SetTimeout (ms : Z)          (* sleep: setTimeout(resolve, ms) *)
| TtsPlay (q : jsstring)       (* new Audio(translate_tts ... q=chunk) at
                                  playbackRate 0.5, then play() *)
| WebSpeech (text : jsstring). (* fallbackToWebSpeech(text): cancel(), then
                                  speak an utterance of text at rate 0.5 *)

(** What the host reports back.  The events of a chunk audio go to the
    handlers of the audio created last. *)
Inductive event : Type :=
| EvBlobEnded      (* recorded audio: ended *)
| EvBlobError      (* recorded audio: error *)
| EvTimeout        (* the sleep timer fires *)
| EvPlay           (* synthesized chunk audio: play *)
| EvEnded          (* synthesized chunk audio: ended *)
| EvError          (* synthesized chunk audio: error *)
| EvRejected       (* synthesized chunk audio: the play() promise rejects *)
| EvFallbackDone.  (* fallback utterance: end or error *)

(** The [Audio] element [playNextChunk] creates for a chunk, with what its
    handlers captured: the start of the chunk's word range and the length
    of [chunkWords]. *)
Record audio : Type := mkAudio {
  wordStartIndex : nat;
  chunkWordsLength : nat
}.

(** Where [playbackCycle] is suspended. *)
Inductive cycle_phase : Type :=
| Idle | AwaitPlayAudio | AwaitSleep | AwaitSpeak | Finished.

Record state : Type := mkState {
  currentAudioBlob : blob;
  currentThai : jsstring;
  thaiWords : list bool;    (* the .thai-word spans of thaiEl in document
                               order: does classList hold "highlighted"? *)
  cycle : cycle_phase;
  chunks : list jsstring;   (* closure variables of the sequencer *)
  chunkIndex : nat;
  tts : option audio;       (* the chunk audio created last, until it has
                               ended *)
  fallbacks : nat;          (* fallback utterances not yet finished *)
  resolved : bool;          (* the sequencer's promise has resolved *)
  threw : bool;             (* the sequencer's promise has rejected: its
                               executor threw *)
  log : list effect
}.

Definition set_thaiWords (v : list bool) (st : state) : state :=
  mkState (currentAudioBlob st) (currentThai st) v (cycle st) (chunks st)
          (chunkIndex st) (tts st) (fallbacks st) (resolved st)
          (threw st) (log st).
Definition set_cycle (v : cycle_phase) (st : state) : state :=
  mkState (currentAudioBlob st) (currentThai st) (thaiWords st) v (chunks st)
          (chunkIndex st) (tts st) (fallbacks st) (resolved st)
          (threw st) (log st).
Definition set_chunks (v : list jsstring) (st : state) : state :=
  mkState (currentAudioBlob st) (currentThai st) (thaiWords st) (cycle st) v
          (chunkIndex st) (tts st) (fallbacks st) (resolved st)
          (threw st) (log st).
Definition set_chunkIndex (v : nat) (st : state) : state :=
  mkState (currentAudioBlob st) (currentThai st) (thaiWords st) (cycle st)
          (chunks st) v (tts st) (fallbacks st) (resolved st)
          (threw st) (log st).
Definition set_tts (v : option audio) (st : state) : state :=
  mkState (currentAudioBlob st) (currentThai st) (thaiWords st) (cycle st)
          (chunks st) (chunkIndex st) v (fallbacks st) (resolved st)
          (threw st) (log st).
Definition set_fallbacks (v : nat) (st : state) : state :=
  mkState (currentAudioBlob st) (currentThai st) (thaiWords st) (cycle st)
          (chunks st) (chunkIndex st) (tts st) v (resolved st)
          (threw st) (log st).
Definition set_resolved (v : bool) (st : state) : state :=
  mkState (currentAudioBlob st) (currentThai st) (thaiWords st) (cycle st)
          (chunks st) (chunkIndex st) (tts st) (fallbacks st) v (threw st)
          (log st).
Definition set_threw (v : bool) (st : state) : state :=
  mkState (currentAudioBlob st) (currentThai st) (thaiWords st) (cycle st)
          (chunks st) (chunkIndex st) (tts st) (fallbacks st) (resolved st) v
          (log st).
Definition emit (e : effect) (st : state) : state :=
  mkState (currentAudioBlob st) (currentThai st) (thaiWords st) (cycle st)
          (chunks st) (chunkIndex st) (tts st) (fallbacks st) (resolved st)
          (threw st) (log st ++ [e]).

(** The state when a cycle is about to start: text translated and
    displayed, nothing playing. *)
Definition ready (b : blob) (thai : jsstring) (spans : list bool) : state :=
  mkState b thai spans Idle [] 0 None 0 false false [].

(* ================================================================== *)
(** ** HighlightSequencer: [speakThaiWithHighlighting] *)
(* ================================================================== *)

(** [list.forEach((x, index) => ...)] where the callback updates [x]. *)
Fixpoint forEach_from {A : Type} (f : A -> nat -> A) (i : nat) (l : list A)
  : list A :=
  match l with
  | [] => []
  | x :: l' => f x i :: forEach_from f (S i) l'
  end.

Definition forEach {A : Type} (f : A -> nat -> A) (l : list A) : list A :=
  forEach_from f 0 l.

(** [word.classList.add("highlighted")] and [.remove("highlighted")]. *)
Definition add_highlighted (word : bool) : bool := true.
Definition remove_highlighted (word : bool) : bool := false.

(** [resolve()]: the promise settles, and a [playbackCycle] awaiting it
    runs to its end. *)
Definition resolve (st : state) : state :=
  let st := set_resolved true st in
  match cycle st with
  | AwaitSpeak => set_cycle Finished st
  | _ => st
  end.

(** An exception leaves the executor of the promise: the promise rejects,
    the [await] in [playbackCycle] throws, and the [catch] there logs the
    error and lets the cycle end. *)
Definition reject (st : state) : state :=
  let st := set_threw true st in
  match cycle st with
  | AwaitSpeak => set_cycle Finished st
  | _ => st
  end.

(** Surrogate code units: U+D800..U+DBFF lead a pair, U+DC00..U+DFFF
    trail one. *)
Definition is_high_surrogate (c : code_unit) : bool :=
  ((55296 <=? c) && (c <=? 56319))%N.
Definition is_low_surrogate (c : code_unit) : bool :=
  ((56320 <=? c) && (c <=? 57343))%N.

(** Reading a string from the left, [pending] telling whether the unit
    before was a leading surrogate still waiting for its trail: is every
    surrogate part of a pair? *)
Fixpoint well_formed_from (pending : bool) (s : jsstring) : bool :=
  match s with
  | [] => negb pending
  | c :: s' =>
      if pending then is_low_surrogate c && well_formed_from false s'
      else if is_high_surrogate c then well_formed_from true s'
      else negb (is_low_surrogate c) && well_formed_from false s'
  end.

(** [s.isWellFormed()]: no lone surrogate.  [encodeURIComponent(s)] throws
    a URIError exactly when [s] is not well formed. *)
Definition isWellFormed (s : jsstring) : bool := well_formed_from false s.

(** The [for] loop that adds up the word counts of the chunks before
    [chunkIndex]. *)
Definition sum_words_before (chunks : list jsstring) (chunkIndex : nat) : nat :=
  fold_left (fun wordStartIndex i =>
               wordStartIndex + List.length (split_ws (nth i chunks [])))
            (seq 0 chunkIndex) 0.

(** [playNextChunk()].  [None] stands for the URIError that
    [encodeURIComponent(chunk)] throws while the address of the audio is
    built: nothing has been created or changed by then. *)
Definition playNextChunk (st : state) : option state :=
  if List.length (chunks st) <=? chunkIndex st then
    (* Remove all highlighting when done *)
    Some (resolve
            (set_thaiWords
               (forEach (fun word _ => remove_highlighted word) (thaiWords st))
               st))
  else
    let chunk := nth (chunkIndex st) (chunks st) [] in
    if isWellFormed chunk then
      let chunkWords := split_ws chunk in
      let start := sum_words_before (chunks st) (chunkIndex st) in
      Some (emit (TtsPlay chunk)
                 (set_tts (Some (mkAudio start (List.length chunkWords))) st))
    else None.

(** The executor of the promise.  An exception of the first
    [playNextChunk()] rejects the promise. *)
Definition speakThaiWithHighlighting (st : state) : state :=
  if negb (truthy (currentThai st))
     || streq (currentThai st) (lit "Translation failed")
  then resolve st
  else
    let st := set_chunkIndex 0
                (set_chunks (splitTextIntoChunks (currentThai st) 200) st) in
    match playNextChunk st with
    | Some st' => st'
    | None => reject st
    end.

(** [audio.onplay]. *)
Definition onplay (a : audio) (st : state) : state :=
  set_thaiWords
    (forEach (fun word index =>
                if (wordStartIndex a <=? index)
                   && (index <? wordStartIndex a + chunkWordsLength a)
                then add_highlighted word
                else remove_highlighted word)
             (thaiWords st))
    st.

(** [audio.onended].  Nothing catches an exception of [playNextChunk()]
    here: the handler ends with the index advanced, no audio created and
    the promise pending. *)
Definition onended (st : state) : state :=
  let st := set_chunkIndex (S (chunkIndex st)) st in
  match playNextChunk st with
  | Some st' => st'
  | None => st
  end.

(** [fallbackToWebSpeech(this.currentThai).then(resolve)], the body shared
    by [audio.onerror] and the [catch] of [audio.play()]. *)
Definition fallback (st : state) : state :=
  set_fallbacks (S (fallbacks st)) (emit (WebSpeech (currentThai st)) st).

(* ================================================================== *)
(** ** PlaybackCycleOrchestrator: [playbackCycle] and the event loop *)
(* ================================================================== *)

(** [playbackCycle] up to its first [await]. *)
Definition playbackCycle (st : state) : state :=
  set_cycle AwaitPlayAudio (emit (PlayBlob (currentAudioBlob st)) st).

(** One turn of the event loop: the handler registered for the event runs,
    as the source has it.  The handlers of a chunk audio carry no guard:
    they do not ask what the audio has reported before.  An event for
    which there is no object changes nothing: the recorded audio and the
    timer exist only while [playbackCycle] awaits them, a chunk audio from
    its creation until it has ended, a fallback utterance until it is
    over. *)
Definition handle (e : event) (st : state) : state :=
  match e with
  | EvBlobEnded | EvBlobError =>
      match cycle st with
      | AwaitPlayAudio => set_cycle AwaitSleep (emit (SetTimeout 500) st)
      | _ => st
      end
  | EvTimeout =>
      match cycle st with
      | AwaitSleep => speakThaiWithHighlighting (set_cycle AwaitSpeak st)
      | _ => st
      end
  | EvPlay =>
      match tts st with
      | Some a => onplay a st
      | None => st
      end
  | EvEnded =>
      match tts st with
      | Some _ => onended (set_tts None st)
      | None => st
      end
  | EvError | EvRejected =>
      match tts st with
      | Some _ => fallback st
      | None => st
      end
  | EvFallbackDone =>
      match fallbacks st with
      | O => st
      | S n => resolve (set_fallbacks n st)
      end
  end.

(** The event loop over a sequence of events. *)
Definition run (evs : list event) (st : state) : state :=
  fold_left (fun s e => handle e s) evs st.

(** The number of pieces [split(/\s+/)] gives for a chunk, which is what
    the sequencer counts as the chunk's words. *)
Definition tokenCount (chunk : jsstring) : nat := List.length (split_ws chunk).

(** The sequencer started directly on a translated text. *)
Definition speaking (thai : jsstring) (spans : list bool) : state :=
  speakThaiWithHighlighting (set_cycle AwaitSpeak (ready 0 thai spans)).

(** The state once [playNextChunk()] has run at the current index; the
    state as it was when the call throws. *)
Definition started_chunk (st : state) : state :=
  match playNextChunk st with Some st' => st' | None => st end.

(* ================================================================== *)
(** ** Predicates used in the statements *)
(* ================================================================== *)

(** No whitespace code unit anywhere in the string. *)
Definition ws_free (w : jsstring) : Prop :=
  Forall (fun c => is_ws c = false) w.

(** No whitespace at either end of the string. *)
Definition no_edge_ws (s : jsstring) : Prop :=
  starts_ws s = false /\ starts_ws (rev s) = false.

(** Every code unit of the string is whitespace. *)
Definition all_ws (s : jsstring) : Prop :=
  Forall (fun c => is_ws c = true) s.

(** A proper word: non-empty and free of whitespace. *)
Definition proper_word (w : jsstring) : Prop := w <> [] /\ ws_free w.

(** What the chunker promises of a chunk [c] of a text whose pieces are
    [W]: it fits in [maxLength], or it is one whole piece of the text that
    is itself longer than [maxLength]. *)
Definition fits_or_overlong_word (maxLength : Z) (W : list jsstring)
  (c : jsstring) : Prop :=
  (len c <= maxLength)%Z
  \/ ((maxLength < len c)%Z /\ In c W /\ ws_free c).

(** A chunk as the synthesis endpoint should receive it. *)
Definition tidy_chunk (c : jsstring) : Prop := c <> [] /\ no_edge_ws c.

(** Loop invariant behind the length bound: the chunks pushed so far are
    within the promise, and the running chunk fits or is one piece. *)
Definition bound_inv (maxLength : Z) (W : list jsstring)
  (st : chunker_state) : Prop :=
  Forall (fits_or_overlong_word maxLength W) (fst st)
  /\ (snd st = [] \/ (len (snd st) <= maxLength)%Z \/ In (snd st) W).

(** Loop invariant behind tidiness: pushed chunks are tidy and the running
    chunk does not start with whitespace. *)
Definition tidy_inv (st : chunker_state) : Prop :=
  Forall tidy_chunk (fst st) /\ starts_ws (snd st) = false.

(** [x + " " + w], or just [w] when [x] is empty. *)
Definition snoc_sp (x w : jsstring) : jsstring :=
  if truthy x then x ++ SP :: w else w.

(** The text a loop state stands for: the pushed chunks and the running
    chunk, joined by single spaces. *)
Definition flat (st : chunker_state) : jsstring :=
  join_sp (fst st ++ (if truthy (snd st) then [snd st] else [])).

(** Loop invariant behind reconstruction: pushed chunks are tidy and the
    running chunk has no whitespace at its ends. *)
Definition join_inv (st : chunker_state) : Prop :=
  Forall tidy_chunk (fst st) /\ no_edge_ws (snd st).

Definition b2n (b : bool) : nat := if b then 1 else 0.

(** A failure notification of a chunk audio. *)
Definition is_failure (e : event) : bool :=
  match e with EvError | EvRejected => true | _ => false end.

(** The [ended] notification of a chunk audio. *)
Definition is_ended (e : event) : bool :=
  match e with EvEnded => true | _ => false end.

(** What the host does for an audio that has failed: it reports no
    [ended] for it.  (An [error] of a media element is fatal, and a
    rejected [play()] leaves the element paused; nothing here calls
    [play()] again.) *)
Definition no_ended (evs : list event) : Prop := ~ In EvEnded evs.



(** Inputs of the specification's scenarios: two chunks covering words
    [0,2) and [2,5), and a text of 449 code units that is cut into three
    chunks. *)
Definition two_chunks : state :=
  set_chunks [lit "a b"; lit "c d e"]
    (set_cycle AwaitSpeak
       (ready 0 (lit "a b c d e") [false; false; false; false; false])).

Definition long_text : jsstring :=
  trim (List.concat (repeat (lit "abcdefghi ") 45)).

(* ================================================================== *)
(** ** Runs without failures *)
(* ================================================================== *)

(** The translation the sequencer does not speak: empty, or the text that
    stands for a failed translation. *)
Definition unspeakable (thai : jsstring) : Prop :=
  thai = [] \/ thai = lit "Translation failed".

(** What holds of every state of a cycle in which no chunk audio has
    failed: no fallback is pending; the spans are untouched until the
    sequencer starts; and once the promise has resolved, either the text
    was not to be spoken and the spans are as they were, or the chunks are
    exhausted and no span is highlighted. *)
Definition clean_inv (thai : jsstring) (spans : list bool) (st : state)
  : Prop :=
  fallbacks st = 0
  /\ List.length (thaiWords st) = List.length spans
  /\ (cycle st = AwaitPlayAudio \/ cycle st = AwaitSleep ->
      thaiWords st = spans)
  /\ (resolved st = true ->
      tts st = None
      /\ ((unspeakable thai /\ chunks st = [] /\ thaiWords st = spans)
          \/ (chunks st = splitTextIntoChunks thai 200
              /\ List.length (chunks st) <= chunkIndex st
              /\ thaiWords st = repeat false (List.length spans)))).

(* ================================================================== *)
(** ** Greedy chunks *)
(* ================================================================== *)

(** The first whitespace-delimited piece of a text. *)
Definition first_word (d : jsstring) : jsstring := hd [] (split_ws d).

(** [P] holds of every two neighbours of a list. *)
Fixpoint adjacent {A : Type} (P : A -> A -> Prop) (l : list A) : Prop :=
  match l with
  | c :: ((d :: _) as rest) => P c d /\ adjacent P rest
  | _ => True
  end.

(** The chunk [c], a space and the first word of [d] together are longer
    than [maxLength]: the word that opens [d] did not fit into [c]. *)
Definition would_overflow (maxLength : Z) (c d : jsstring) : Prop :=
  (maxLength < len c + 1 + len (first_word d))%Z.

(** Loop invariant behind greediness, over the proper words of a text:
    neighbours among the pushed chunks could not have been merged, nor
    could the last pushed chunk have taken the word that opens the running
    chunk; and nothing is pushed while the running chunk is empty. *)
Definition greedy_inv (maxLength : Z) (st : chunker_state) : Prop :=
  join_inv st
  /\ adjacent (would_overflow maxLength) (fst st)
  /\ (snd st = [] -> fst st = [])
  /\ (forall pre c, fst st = pre ++ [c] ->
                    would_overflow maxLength c (snd st)).

(* ================================================================== *)
(** ** Rendering the translation: [displayThai] *)
(* ================================================================== *)

(** [s.split(/(\s+)/)]: as [split(/\s+/)], but the capture group puts each
    whitespace run into the result, between the pieces it separates.  A
    text that starts with whitespace splits into an empty piece, the run
    and more, so the last case of the inner match does not arise. *)
Fixpoint split_ws_capture (s : jsstring) : list jsstring :=
  match s with
  | [] => [[]]
  | c :: s' =>
      if is_ws c then
        if starts_ws s'
        then match split_ws_capture s' with
             | piece :: run :: rest => piece :: (c :: run) :: rest
             | other => other
             end
        else [] :: [c] :: split_ws_capture s'
      else cons_head c (split_ws_capture s')
  end.

(** [list.map((x, index) => ...)]. *)
Fixpoint map_from {A B : Type} (f : A -> nat -> B) (i : nat) (l : list A)
  : list B :=
  match l with
  | [] => []
  | x :: l' => f x i :: map_from f (S i) l'
  end.

Definition map_index {A B : Type} (f : A -> nat -> B) (l : list A) : list B :=
  map_from f 0 l.

(** The decimal digits of a number, as a template literal prints it. *)
Fixpoint digits (d : Decimal.uint) : jsstring :=
  match d with
  | Decimal.Nil => []
  | Decimal.D0 d' => 48%N :: digits d'
  | Decimal.D1 d' => 49%N :: digits d'
  | Decimal.D2 d' => 50%N :: digits d'
  | Decimal.D3 d' => 51%N :: digits d'
  | Decimal.D4 d' => 52%N :: digits d'
  | Decimal.D5 d' => 53%N :: digits d'
  | Decimal.D6 d' => 54%N :: digits d'
  | Decimal.D7 d' => 55%N :: digits d'
  | Decimal.D8 d' => 56%N :: digits d'
  | Decimal.D9 d' => 57%N :: digits d'
  end.

Definition number_to_string (n : nat) : jsstring := digits (Nat.to_uint n).

(** U+0022, the quotation mark around attribute values. *)
Definition QUOTE : code_unit := 34%N.

(** What the callback of [words.map] returns for one element of the split
    text, before it is printed: the element inside the markup of a word
    span that carries the element's index, or the element as it is.  The
    element goes into the markup unescaped, and what the browser makes of
    the assigned string is not part of this model. *)
Inductive node : Type :=
| WordSpan (data_index : nat) (text : jsstring)
| PlainText (text : jsstring).

(** The callback of [words.map] in [displayThai], before it is printed. *)
Definition thai_node (word : jsstring) (index : nat) : node :=
  if truthy (trim word) then WordSpan index word else PlainText word.

(** The markup of a node: the template literal of the callback, or the
    element itself. *)
Definition node_html (n : node) : jsstring :=
  match n with
  | WordSpan index word =>
      lit "<span class=" ++ [QUOTE] ++ lit "thai-word" ++ [QUOTE]
      ++ lit " data-index=" ++ [QUOTE] ++ number_to_string index ++ [QUOTE]
      ++ lit ">" ++ word ++ lit "</span>"
  | PlainText word => word
  end.

Definition node_text (n : node) : jsstring :=
  match n with WordSpan _ word => word | PlainText word => word end.

(** The results of the callback for a translation, in order. *)
Definition thai_nodes (thai : jsstring) : list node :=
  map_index thai_node (split_ws_capture thai).

(** The string [displayThai] assigns to [thaiEl.innerHTML]. *)
Definition thai_innerHTML (thai : jsstring) : jsstring :=
  List.concat (map node_html (thai_nodes thai)).

(** The elements the callback has wrapped in word-span markup, in the
    order written: the index written into [data-index], and the element.
    These are pieces of the assigned string, not the elements of the
    page: a translation that holds markup of its own is parsed by the
    browser into other spans than these. *)
Definition wrapped (l : list node) : list (nat * jsstring) :=
  flat_map (fun n => match n with
                     | WordSpan i w => [(i, w)]
                     | PlainText _ => []
                     end) l.

(** The wrapped elements for the pieces of a text, the first piece at
    index [i]: every second element of the split text is a piece. *)
Fixpoint spans_from (i : nat) (pieces : list jsstring)
  : list (nat * jsstring) :=
  match pieces with
  | [] => []
  | p :: ps =>
      (if truthy p then [(i, p)] else []) ++ spans_from (S (S i)) ps
  end.

(* ================================================================== *)
(** ** FallbackSpeaker: [fallbackToWebSpeech] *)
(* ================================================================== *)

(** A voice of the host's speech synthesizer, with its language tag. *)
Record voice : Type := mkVoice {
  voiceURI : nat;
  lang : jsstring
}.

(** [s.startsWith(p)]. *)
Fixpoint starts_with (s p : jsstring) : bool :=
  match p, s with
  | [], _ => true
  | x :: p', y :: s' => (x =? y)%N && starts_with s' p'
  | _ :: _, [] => false
  end.

(** [s.includes(p)]: [p] occurs somewhere in [s]. *)
Fixpoint includes (s p : jsstring) : bool :=
  starts_with s p
  || match s with
     | [] => false
     | _ :: s' => includes s' p
     end.

(** The utterance the function hands to [speechSynthesis.speak], after
    [speechSynthesis.cancel()]: its text and its voice, [None] standing
    for the host's default voice.  Its rate is always 0.5. *)
Record utterance : Type := mkUtterance {
  utterance_text : jsstring;
  utterance_voice : option voice
}.

Definition fallbackToWebSpeech (voices : list voice) (text : jsstring)
  : utterance :=
  let thaiVoice :=
    find (fun voice => includes (lang voice) (lit "th")) voices in
  mkUtterance text thaiVoice.

(** The two letters [th] occur somewhere in the tag. *)
Definition mentions_th (tag : jsstring) : Prop :=
  exists a b, tag = a ++ lit "th" ++ b.

(* ================================================================== *)
(** ** The controller: keys, recording and [processAudio] *)
(* ================================================================== *)

Module Learner.

(** [e.code] of a keyboard event, as far as the handlers tell keys
    apart. *)
Inductive key : Type := Space | ShiftLeft | ShiftRight | OtherKey.

(** The [type] argument of [updateStatus], which becomes the class of the
    status element. *)
Inductive status_type : Type :=
| StReady | StRecording | StProcessing | StError.

(** What the controller asks of the host, in the order it asks. *)
Inductive effect : Type :=
| RecorderStart                        (* mediaRecorder.start() *)
| RecorderStop                         (* mediaRecorder.stop() *)
| SpeechCancel                         (* speechSynthesis.cancel() *)
| TranslateRequest (english : jsstring)
                                       (* fetch of /api/generate with the
                                          prompt built from currentEnglish *)
| StartPlayback (recording : option blob) (thai : jsstring)
                                       (* this.playbackCycle(), with the
                                          fields it will read *)
| ErrorTimer.                          (* showError: setTimeout(.., 3000) *)

(** What the host reports back. *)
Inductive event : Type :=
| KeyDown (k : key)
| KeyUp (k : key)
| RecorderStopped (b : blob)     (* onstop; b is the Blob of the chunks *)
| Transcribed (text : jsstring)  (* the model's result.text *)
| TranscribeFailed               (* arrayBuffer, decodeAudioData or the
                                    model threw *)
| Translated (response : jsstring)
                                 (* an ok response with data.response *)
| TranslateFailed                (* fetch failed, not ok, or bad JSON *)
| PlaybackDone                   (* the awaited playbackCycle is over *)
| ErrorTimerFired.               (* a timer of showError fires *)

(** Where the work started by a key release stands: the recorder is
    stopping, or [processAudio] is suspended at one of its awaits. *)
Inductive stage : Type :=
| Idle | Stopping | Transcribing | Translating | Playing.

Record learner : Type := mkLearner {
  isRecording : bool;
  isProcessing : bool;
  currentAudioBlob : option blob;   (* null until the first recording *)
  currentEnglish : jsstring;
  currentThai : jsstring;
  englishText : jsstring;           (* englishEl.textContent *)
  thaiMarkup : jsstring;            (* the string last assigned to
                                       thaiEl.innerHTML; the class never
                                       reads the property back *)
  status : status_type;             (* the class of statusEl *)
  work : stage;
  timers : nat;                     (* timers of showError not yet fired *)
  log : list effect
}.

Definition set_isRecording (v : bool) (s : learner) : learner :=
  mkLearner v (isProcessing s) (currentAudioBlob s) (currentEnglish s)
            (currentThai s) (englishText s) (thaiMarkup s) (status s) (work s)
            (timers s) (log s).
Definition set_isProcessing (v : bool) (s : learner) : learner :=
  mkLearner (isRecording s) v (currentAudioBlob s) (currentEnglish s)
            (currentThai s) (englishText s) (thaiMarkup s) (status s) (work s)
            (timers s) (log s).
Definition set_currentAudioBlob (v : option blob) (s : learner) : learner :=
  mkLearner (isRecording s) (isProcessing s) v (currentEnglish s)
            (currentThai s) (englishText s) (thaiMarkup s) (status s) (work s)
            (timers s) (log s).
Definition set_currentEnglish (v : jsstring) (s : learner) : learner :=
  mkLearner (isRecording s) (isProcessing s) (currentAudioBlob s) v
            (currentThai s) (englishText s) (thaiMarkup s) (status s) (work s)
            (timers s) (log s).
Definition set_currentThai (v : jsstring) (s : learner) : learner :=
  mkLearner (isRecording s) (isProcessing s) (currentAudioBlob s)
            (currentEnglish s) v (englishText s) (thaiMarkup s) (status s)
            (work s) (timers s) (log s).
Definition set_englishText (v : jsstring) (s : learner) : learner :=
  mkLearner (isRecording s) (isProcessing s) (currentAudioBlob s)
            (currentEnglish s) (currentThai s) v (thaiMarkup s) (status s)
            (work s) (timers s) (log s).
Definition set_thaiMarkup (v : jsstring) (s : learner) : learner :=
  mkLearner (isRecording s) (isProcessing s) (currentAudioBlob s)
            (currentEnglish s) (currentThai s) (englishText s) v (status s)
            (work s) (timers s) (log s).
Definition set_work (v : stage) (s : learner) : learner :=
  mkLearner (isRecording s) (isProcessing s) (currentAudioBlob s)
            (currentEnglish s) (currentThai s) (englishText s) (thaiMarkup s)
            (status s) v (timers s) (log s).
Definition set_timers (v : nat) (s : learner) : learner :=
  mkLearner (isRecording s) (isProcessing s) (currentAudioBlob s)
            (currentEnglish s) (currentThai s) (englishText s) (thaiMarkup s)
            (status s) (work s) v (log s).
Definition emit (e : effect) (s : learner) : learner :=
  mkLearner (isRecording s) (isProcessing s) (currentAudioBlob s)
            (currentEnglish s) (currentThai s) (englishText s) (thaiMarkup s)
            (status s) (work s) (timers s) (log s ++ [e]).

(** [updateStatus(message, type)], as far as the class goes. *)
Definition updateStatus (type : status_type) (s : learner) : learner :=
  mkLearner (isRecording s) (isProcessing s) (currentAudioBlob s)
            (currentEnglish s) (currentThai s) (englishText s) (thaiMarkup s)
            type (work s) (timers s) (log s).

(** The controller once [init] has succeeded, on a page whose English
    element holds [english] and whose Thai element was written from the
    markup [thai]. *)
Definition started (english thai : jsstring) : learner :=
  mkLearner false false None [] [] english thai StReady Idle 0 [].

Definition reset (s : learner) : learner :=
  emit SpeechCancel
    (set_currentThai []
       (set_currentEnglish [] (set_thaiMarkup [] (set_englishText [] s)))).

Definition startRecording (s : learner) : learner :=
  if isRecording s || isProcessing s then s
  else reset (updateStatus StRecording
                (emit RecorderStart (set_isRecording true s))).

Definition stopRecording (s : learner) : learner :=
  if negb (isRecording s) then s
  else set_isProcessing true
         (updateStatus StProcessing
            (emit RecorderStop (set_isRecording false s))).

Definition showError (s : learner) : learner :=
  set_timers (S (timers s)) (emit ErrorTimer (updateStatus StError s)).

Definition displayEnglish (s : learner) : learner :=
  set_englishText (currentEnglish s) s.

Definition displayThai (s : learner) : learner :=
  set_thaiMarkup (thai_innerHTML (currentThai s)) s.

(** The call [this.playbackCycle()]; the cycle itself is the machine of
    the sections above. *)
Definition playbackCycle (s : learner) : learner :=
  emit (StartPlayback (currentAudioBlob s) (currentThai s)) s.

(** The [finally] block of [processAudio], after which it returns. *)
Definition finally (s : learner) : learner :=
  set_work Idle (updateStatus StReady (set_isProcessing false s)).

(** The [catch] block of [processAudio], followed by [finally]. *)
Definition catch (s : learner) : learner := finally (showError s).

(** [processAudio] from the model's result to the await of the
    translation. *)
Definition transcribed (text : jsstring) (s : learner) : learner :=
  let s := set_currentEnglish (trim text) s in
  if negb (truthy (currentEnglish s)) then catch s
  else emit (TranslateRequest (currentEnglish s))
         (set_work Translating (displayEnglish s)).

(** [translateToThai] from the settling of the request, then
    [processAudio] up to the await of the playback cycle. *)
Definition translated (response : option jsstring) (s : learner) : learner :=
  let thai := match response with
              | Some r => trim r
              | None => lit "Translation failed"
              end in
  set_work Playing (playbackCycle (displayThai (set_currentThai thai s))).

(** One turn of the event loop.  The host reports the end of a stage only
    while the controller waits for it. *)
Definition handle (e : event) (s : learner) : learner :=
  match e with
  | KeyDown Space => if negb (isProcessing s) then startRecording s else s
  | KeyDown ShiftLeft | KeyDown ShiftRight =>
      if truthy (currentEnglish s) && truthy (currentThai s)
         && negb (isProcessing s)
      then playbackCycle s
      else s
  | KeyDown OtherKey => s
  | KeyUp Space =>
      if isRecording s then set_work Stopping (stopRecording s) else s
  | KeyUp _ => s
  | RecorderStopped b =>
      match work s with
      | Stopping => set_work Transcribing (set_currentAudioBlob (Some b) s)
      | _ => s
      end
  | Transcribed text =>
      match work s with Transcribing => transcribed text s | _ => s end
  | TranscribeFailed =>
      match work s with Transcribing => catch s | _ => s end
  | Translated response =>
      match work s with Translating => translated (Some response) s | _ => s end
  | TranslateFailed =>
      match work s with Translating => translated None s | _ => s end
  | PlaybackDone =>
      match work s with Playing => finally s | _ => s end
  | ErrorTimerFired =>
      match timers s with
      | O => s
      | S n => updateStatus StReady (set_timers n s)
      end
  end.

Definition run (evs : list event) (s : learner) : learner :=
  fold_left (fun s e => handle e s) evs s.

(** The media recorder as the calls in a log drive it: [Some true] while
    it records, [Some false] while it does not, [None] once it has been
    started while recording or stopped while not. *)
Definition recorder_step (r : option bool) (e : effect) : option bool :=
  match e, r with
  | RecorderStart, Some false => Some true
  | RecorderStart, _ => None
  | RecorderStop, Some true => Some false
  | RecorderStop, _ => None
  | _, _ => r
  end.

Definition recorder_after (l : list effect) : option bool :=
  fold_left recorder_step l (Some false).

(** A call of the playback cycle that finds what it needs: a recording,
    and a translation without whitespace at its ends. *)
Definition sound_playback (e : effect) : Prop :=
  match e with
  | StartPlayback recording thai =>
      recording <> None /\ no_edge_ws thai
  | _ => True
  end.

(** The page was last written from what the fields hold now. *)
Definition in_sync (s : learner) : Prop :=
  englishText s = currentEnglish s
  /\ thaiMarkup s = thai_innerHTML (currentThai s).

(** What holds of every state of the controller. *)
Definition inv (s : learner) : Prop :=
  isRecording s && isProcessing s = false
  /\ (isProcessing s = true <-> work s <> Idle)
  /\ (isRecording s = true \/ work s = Stopping \/ work s = Transcribing ->
      currentEnglish s = [] /\ currentThai s = [])
  /\ (work s = Transcribing \/ work s = Translating \/ work s = Playing
      \/ currentEnglish s <> [] ->
      currentAudioBlob s <> None)
  /\ no_edge_ws (currentThai s)
  /\ Forall sound_playback (log s)
  /\ recorder_after (log s) = Some (isRecording s).

End Learner.

(* ================================================================== *)
(** ** Reading the log, and what every run keeps *)
(* ================================================================== *)

(** The chunk texts sent to the synthesis endpoint, in the order sent. *)
Definition tts_requests (l : list effect) : list jsstring :=
  flat_map (fun e => match e with TtsPlay q => [q] | _ => [] end) l.

(** The texts handed to the fallback speaker, in the order handed. *)
Definition web_speeches (l : list effect) : list jsstring :=
  flat_map (fun e => match e with WebSpeech t => [t] | _ => [] end) l.

(** Is there a chunk audio whose handlers are registered? *)
Definition live (st : state) : bool :=
  match tts st with Some _ => true | None => false end.

(** What the steps of the sequencer keep between two states: the number
    of word spans, the text and the recording; and at most [n] calls of
    the fallback speaker lie between them. *)
Definition keeps (n : nat) (st st' : state) : Prop :=
  List.length (thaiWords st') = List.length (thaiWords st)
  /\ currentThai st' = currentThai st
  /\ currentAudioBlob st' = currentAudioBlob st
  /\ List.length (web_speeches (log st'))
     <= List.length (web_speeches (log st)) + n.

(** The events of a chunk that plays without trouble. *)
Definition plays_through : list event := [EvPlay; EvEnded].

(** Position [k] lies in the word range of chunk [i] of [cs], as
    [playNextChunk] computes the range. *)
Definition in_range (cs : list jsstring) (i k : nat) : Prop :=
  sum_words_before cs i <= k
  < sum_words_before cs i + tokenCount (nth i cs []).

(** What holds of every state of a cycle for the translation [thai]: the
    requests made of the synthesis endpoint are the chunks up to the
    current one, in order; the cycle is marked finished exactly when the
    sequencer's promise has settled, resolved or rejected; and a rejected
    promise means that nothing was ever requested or is pending. *)
Definition order_inv (thai : jsstring) (st : state) : Prop :=
  cycle st <> Idle
  /\ currentThai st = thai
  /\ (chunks st = splitTextIntoChunks thai 200
      \/ (chunks st = [] /\ chunkIndex st = 0 /\ tts st = None))
  /\ tts_requests (log st)
     = firstn (chunkIndex st + b2n (live st)) (chunks st)
  /\ (live st = true -> chunkIndex st < List.length (chunks st))
  /\ (cycle st = AwaitPlayAudio \/ cycle st = AwaitSleep ->
      tts st = None /\ chunks st = [] /\ chunkIndex st = 0
      /\ fallbacks st = 0 /\ resolved st = false /\ threw st = false)
  /\ (cycle st = Finished <-> resolved st = true \/ threw st = true)
  /\ (threw st = true ->
      tts st = None /\ fallbacks st = 0 /\ resolved st = false
      /\ chunkIndex st = 0
      /\ chunks st = splitTextIntoChunks thai 200
      /\ isWellFormed (nth 0 (chunks st) []) = false).

(** Two states of the controller used as examples: the model is at work
    on the first recording, and [processAudio] awaits the playback cycle
    after a translation that failed. *)
Definition transcribing_state : Learner.learner :=
  Eval vm_compute in
    Learner.run [Learner.KeyDown Learner.Space; Learner.KeyUp Learner.Space;
                 Learner.RecorderStopped 1]
                (Learner.started [] []).

Definition playing_state : Learner.learner :=
  Eval vm_compute in
    Learner.run [Learner.KeyDown Learner.Space; Learner.KeyUp Learner.Space;
                 Learner.RecorderStopped 1; Learner.Transcribed (lit "a");
                 Learner.TranslateFailed]
                (Learner.started [] []).

(* ================================================================== *)
(** ** Scenarios *)
(* ================================================================== *)

(** Scenarios of the specification. *)
Example chunk_hello_world :
  splitTextIntoChunks (lit "hello world") 200 = [lit "hello world"].
Proof. reflexivity. Qed.

Example chunk_aa_bb_cc_dd :
  splitTextIntoChunks (lit "aa bb cc dd") 5 = [lit "aa bb"; lit "cc dd"].
Proof. reflexivity. Qed.

Example is_ws_samples :
  map is_ws [9; 10; 13; 32; 160; 8232; 12288; 65279]%N
  = [true; true; true; true; true; true; true; true]
  /\ map is_ws [0; 8; 14; 31; 33; 97; 3585; 8203; 8234]%N
     = [false; false; false; false; false; false; false; false; false].
Proof. split; reflexivity. Qed.

Example count_tokens_samples :
  map count_tokens [lit ""; lit " "; lit "a"; lit " a  bc "; lit "a b c"]
  = [0; 0; 1; 2; 3]
  /\ map tokenCount [lit ""; lit " "; lit "a"; lit " a  bc "; lit "a b c"]
     = [1; 2; 1; 4; 3].
Proof. split; reflexivity. Qed.

Example split_ws_edges :
  split_ws (lit " a  b ") = [[]; lit "a"; lit "b"; []]
  /\ split_ws (lit "") = [[]]
  /\ split_ws (lit "   ") = [[]; []].
Proof. repeat split. Qed.

(* ================================================================== *)
(** ** Strings: lengths, trimming, splitting *)
(* ================================================================== *)

Lemma len_app (a b : jsstring) : (len (a ++ b) = len a + len b)%Z.
Proof. unfold len. rewrite length_app. lia. Qed.

Lemma len_cons (c : code_unit) (s : jsstring) : (len (c :: s) = 1 + len s)%Z.
Proof. unfold len. simpl List.length. lia. Qed.

Lemma len_nil : len [] = 0%Z.
Proof. reflexivity. Qed.

Lemma len_nonneg (s : jsstring) : (0 <= len s)%Z.
Proof. unfold len. lia. Qed.

Lemma truthy_true (s : jsstring) : truthy s = true <-> s <> [].
Proof. destruct s; simpl; split; congruence. Qed.

Lemma truthy_false (s : jsstring) : truthy s = false <-> s = [].
Proof. destruct s; simpl; split; congruence. Qed.

Lemma streq_eq (a b : jsstring) : streq a b = true <-> a = b.
Proof.
  revert b. induction a as [|x a IH]; intros [|y b]; simpl; split;
    try congruence; try discriminate.
  - intros H. apply andb_true_iff in H as [Hx Hab].
    apply N.eqb_eq in Hx. apply IH in Hab. congruence.
  - intros H. injection H as -> ->. apply andb_true_iff. split.
    + apply N.eqb_refl.
    + now apply IH.
Qed.

Lemma drop_ws_length (s : jsstring) :
  (List.length (drop_ws s) <= List.length s)%nat.
Proof.
  induction s as [|c s IH]; simpl; [lia|].
  destruct (is_ws c); simpl; lia.
Qed.

Lemma trim_length (s : jsstring) : (len (trim s) <= len s)%Z.
Proof.
  unfold len, trim, trimEnd, trimStart. rewrite length_rev.
  pose proof (drop_ws_length (rev (drop_ws s))) as H1.
  rewrite length_rev in H1. pose proof (drop_ws_length s). lia.
Qed.

Lemma drop_ws_id (s : jsstring) : starts_ws s = false -> drop_ws s = s.
Proof. destruct s as [|c s]; simpl; [reflexivity|]. now intros ->. Qed.

Lemma starts_ws_drop (s : jsstring) : starts_ws (drop_ws s) = false.
Proof.
  induction s as [|c s IH]; simpl; [reflexivity|].
  destruct (is_ws c) eqn:E; [assumption|]. simpl. exact E.
Qed.

Lemma drop_ws_snoc (s : jsstring) (c : code_unit) :
  is_ws c = false -> drop_ws (s ++ [c]) = drop_ws s ++ [c].
Proof.
  intros Hc. induction s as [|x s IH]; simpl.
  - now rewrite Hc.
  - destruct (is_ws x); [exact IH | reflexivity].
Qed.

Lemma trim_clean (s : jsstring) : no_edge_ws s -> trim s = s.
Proof.
  intros [Hs He]. unfold trim, trimEnd, trimStart.
  rewrite (drop_ws_id _ Hs), (drop_ws_id _ He). apply rev_involutive.
Qed.

Lemma trimEnd_cons (c : code_unit) (s : jsstring) :
  is_ws c = false -> trimEnd (c :: s) = c :: trimEnd s.
Proof.
  intros Hc. unfold trimEnd. simpl rev at 2.
  rewrite (drop_ws_snoc _ _ Hc), rev_app_distr. reflexivity.
Qed.

Lemma trim_cons (c : code_unit) (s : jsstring) :
  is_ws c = false -> trim (c :: s) = c :: trimEnd s.
Proof.
  intros Hc. unfold trim, trimStart. simpl. rewrite Hc.
  now apply trimEnd_cons.
Qed.

Lemma trim_no_edge (s : jsstring) : no_edge_ws (trim s).
Proof.
  split.
  - unfold trim, trimStart. pose proof (starts_ws_drop s) as H.
    destruct (drop_ws s) as [|c t]; [reflexivity|].
    simpl in H. rewrite (trimEnd_cons _ _ H). exact H.
  - unfold trim, trimEnd. rewrite rev_involutive. apply starts_ws_drop.
Qed.

Lemma ws_free_no_edge (w : jsstring) : ws_free w -> no_edge_ws w.
Proof.
  intros H. split.
  - destruct H; simpl; auto.
  - apply Forall_rev in H. destruct H; simpl; auto.
Qed.

Lemma ws_free_starts (w : jsstring) : ws_free w -> starts_ws w = false.
Proof. intros H. destruct H; simpl; auto. Qed.

Lemma trim_ws_free (w : jsstring) : ws_free w -> trim w = w.
Proof. intros H. now apply trim_clean, ws_free_no_edge. Qed.

(** A string that starts with a non-whitespace unit trims to a non-empty
    string. *)
Lemma trim_truthy (s : jsstring) :
  truthy s = true -> starts_ws s = false -> trim s <> [].
Proof.
  destruct s as [|c s]; simpl; [discriminate|].
  intros _ Hc. rewrite (trim_cons _ _ Hc). discriminate.
Qed.

Lemma split_ws_not_nil (s : jsstring) : split_ws s <> [].
Proof.
  induction s as [|c s IH]; simpl; [discriminate|].
  destruct (is_ws c).
  - destruct (starts_ws s); [assumption | discriminate].
  - destruct (split_ws s); simpl; discriminate.
Qed.

Lemma split_ws_ws_free (s : jsstring) : Forall ws_free (split_ws s).
Proof.
  induction s as [|c s IH]; simpl.
  - repeat constructor.
  - destruct (is_ws c) eqn:Hc.
    + destruct (starts_ws s); [assumption|].
      constructor; [constructor | assumption].
    + destruct (split_ws s) as [|w ws]; simpl.
      * repeat constructor. exact Hc.
      * inversion IH; subst. constructor; [|assumption].
        constructor; assumption.
Qed.

(** The first piece is empty exactly when the string is empty or starts
    with whitespace. *)
Lemma split_ws_head_nil (s : jsstring) (ws : list jsstring) :
  split_ws s = [] :: ws -> s = [] \/ starts_ws s = true.
Proof.
  destruct s as [|c s]; [now left|]. simpl.
  destruct (is_ws c); [now right|].
  destruct (split_ws s); simpl; discriminate.
Qed.

Lemma split_ws_all_ws (s : jsstring) :
  all_ws s -> split_ws s = [[]] \/ split_ws s = [[]; []].
Proof.
  induction 1 as [|c s Hc Hs IH]; simpl; [now left|].
  rewrite Hc. destruct s as [|d s]; simpl starts_ws.
  - now right.
  - inversion Hs as [|? ? Hd _]; subst. rewrite Hd. exact IH.
Qed.

(* ================================================================== *)
(** ** The chunker's loop *)
(* ================================================================== *)

Section ChunkerLoop.

Variable maxLength : Z.

(** A property kept by every iteration holds after the loop. *)
Lemma fold_chunk_step_inv (P : chunker_state -> Prop) (ws : list jsstring) :
  (forall st w, In w ws -> P st -> P (chunk_step maxLength st w)) ->
  forall st, P st -> P (fold_left (chunk_step maxLength) ws st).
Proof.
  induction ws as [|x ws IH]; simpl; intros Hstep st Hst; [assumption|].
  apply IH.
  - intros st' w Hw. apply Hstep. now right.
  - apply Hstep; [now left | assumption].
Qed.

(** Chunks already pushed stay in the result. *)
Lemma chunk_finish_fold_mono (ws : list jsstring) :
  forall chunks cur c,
    In c chunks ->
    In c (chunk_finish (fold_left (chunk_step maxLength) ws (chunks, cur))).
Proof.
  induction ws as [|x ws IH]; intros chunks cur c Hc.
  - simpl. destruct (truthy cur); [apply in_or_app; now left | assumption].
  - cbn [fold_left].
    destruct (chunk_step maxLength (chunks, cur) x) as [chunks' cur'] eqn:E.
    apply IH. unfold chunk_step in E.
    destruct (_ && _); injection E as <- <-;
      [apply in_or_app; now left | assumption].
Qed.

(** *** Length bound *)

Variable W : list jsstring.
Hypothesis W_ws_free : Forall ws_free W.

Lemma fits_trim (cur : jsstring) :
  truthy cur = true ->
  cur = [] \/ (len cur <= maxLength)%Z \/ In cur W ->
  fits_or_overlong_word maxLength W (trim cur).
Proof.
  intros Ht [-> | [Hle | Hin]]; [discriminate | |].
  - left. pose proof (trim_length cur). lia.
  - assert (Hf : ws_free cur)
      by (rewrite Forall_forall in W_ws_free; now apply W_ws_free).
    rewrite (trim_ws_free _ Hf).
    destruct (Z_le_gt_dec (len cur) maxLength); [now left|].
    right. repeat split; [lia | assumption | assumption].
Qed.

Lemma chunk_step_bound (st : chunker_state) (w : jsstring) :
  In w W ->
  bound_inv maxLength W st -> bound_inv maxLength W (chunk_step maxLength st w).
Proof.
  destruct st as [chunks cur]. unfold bound_inv, chunk_step. simpl.
  intros Hw [Hchunks Hcur].
  destruct (len (cur ++ SP :: w) >? maxLength)%Z eqn:Hgt;
    destruct (truthy cur) eqn:Ht; simpl; split; auto.
  - apply Forall_app. split; [assumption|].
    constructor; [now apply fits_trim | constructor].
  - right. left. rewrite Z.gtb_ltb in Hgt. apply Z.ltb_ge in Hgt. exact Hgt.
Qed.

Lemma chunk_finish_bound (st : chunker_state) :
  bound_inv maxLength W st ->
  Forall (fits_or_overlong_word maxLength W) (chunk_finish st).
Proof.
  destruct st as [chunks cur]. unfold bound_inv, chunk_finish. simpl.
  intros [Hchunks Hcur]. destruct (truthy cur) eqn:Ht; [|assumption].
  apply Forall_app. split; [assumption|].
  constructor; [now apply fits_trim | constructor].
Qed.

(** *** An over-long piece is pushed on its own *)

Lemma overlong_kept (ws : list jsstring) (w : jsstring) :
  w <> [] -> ws_free w -> (maxLength < len w)%Z ->
  forall chunks cur,
    cur = w \/ In w ws ->
    In w (chunk_finish (fold_left (chunk_step maxLength) ws (chunks, cur))).
Proof.
  intros Hne Hfree Hlong.
  assert (Hbig : forall cur x, (len (cur ++ SP :: x) >? maxLength)%Z = false
                               -> (len cur + 1 + len x <= maxLength)%Z).
  { intros cur x H. rewrite Z.gtb_ltb in H. apply Z.ltb_ge in H.
    rewrite len_app, len_cons in H. lia. }
  induction ws as [|x ws IH]; intros chunks cur Hcur.
  - destruct Hcur as [-> | []]. simpl.
    apply truthy_true in Hne. rewrite Hne, (trim_ws_free _ Hfree).
    apply in_or_app. right. now left.
  - cbn [fold_left]. unfold chunk_step.
    destruct (len (cur ++ SP :: x) >? maxLength)%Z eqn:Hgt;
      destruct (truthy cur) eqn:Ht; cbn [andb].
    + (* the running chunk is closed *)
      destruct Hcur as [-> | [-> | Hin]].
      * apply chunk_finish_fold_mono. apply in_or_app. right.
        rewrite (trim_ws_free _ Hfree). now left.
      * apply IH. now left.
      * apply IH. now right.
    + apply truthy_false in Ht. subst cur.
      destruct Hcur as [E | [-> | Hin]];
        [now symmetry in E | apply IH; now left | apply IH; now right].
    + (* the piece is appended: the running chunk was short *)
      apply Hbig in Hgt.
      pose proof (len_nonneg cur). pose proof (len_nonneg x).
      destruct Hcur as [-> | [-> | Hin]]; [lia | lia | apply IH; now right].
    + apply truthy_false in Ht. subst cur.
      destruct Hcur as [E | [-> | Hin]];
        [now symmetry in E | apply IH; now left | apply IH; now right].
Qed.

(** *** Tidy chunks *)

Lemma tidy_trim (cur : jsstring) :
  truthy cur = true -> starts_ws cur = false -> tidy_chunk (trim cur).
Proof.
  intros Ht Hs. split; [now apply trim_truthy | apply trim_no_edge].
Qed.

Lemma chunk_step_tidy (st : chunker_state) (w : jsstring) :
  ws_free w -> tidy_inv st -> tidy_inv (chunk_step maxLength st w).
Proof.
  destruct st as [chunks cur]. unfold tidy_inv, chunk_step. simpl.
  intros Hw [Hchunks Hcur]. apply ws_free_starts in Hw.
  destruct (len (cur ++ SP :: w) >? maxLength)%Z;
    destruct (truthy cur) eqn:Ht; simpl; split; auto.
  - apply Forall_app. split; [assumption|].
    constructor; [now apply tidy_trim | constructor].
  - destruct cur; [discriminate | exact Hcur].
Qed.

Lemma chunk_finish_tidy (st : chunker_state) :
  tidy_inv st -> Forall tidy_chunk (chunk_finish st).
Proof.
  destruct st as [chunks cur]. unfold tidy_inv, chunk_finish. simpl.
  intros [Hchunks Hcur]. destruct (truthy cur) eqn:Ht; [|assumption].
  apply Forall_app. split; [assumption|].
  constructor; [now apply tidy_trim | constructor].
Qed.

End ChunkerLoop.

(* ================================================================== *)
(** ** Joining with single spaces *)
(* ================================================================== *)

Lemma starts_ws_app (a b : jsstring) :
  a <> [] -> starts_ws (a ++ b) = starts_ws a.
Proof. destruct a; [congruence | reflexivity]. Qed.

Lemma join_sp_cons (w : jsstring) (l : list jsstring) :
  l <> [] -> join_sp (w :: l) = w ++ SP :: join_sp l.
Proof. destruct l; [congruence | reflexivity]. Qed.

Lemma join_sp_snoc (l : list jsstring) (w : jsstring) :
  l <> [] -> join_sp (l ++ [w]) = join_sp l ++ SP :: w.
Proof.
  induction l as [|x l IH]; [congruence|]. intros _.
  destruct l as [|y l]; [reflexivity|].
  change ((x :: y :: l) ++ [w]) with (x :: ((y :: l) ++ [w])).
  rewrite join_sp_cons by (simpl; discriminate).
  rewrite IH by discriminate.
  rewrite (join_sp_cons x (y :: l)) by discriminate.
  now rewrite <- app_assoc.
Qed.

Lemma join_sp_truthy (l : list jsstring) :
  Forall (fun c => c <> []) l -> l <> [] -> truthy (join_sp l) = true.
Proof.
  intros Hall Hne. destruct l as [|x l]; [congruence|].
  inversion Hall as [|? ? Hx Hl]; subst.
  apply truthy_true. destruct l; simpl; [assumption|].
  destruct x; [congruence | discriminate].
Qed.

Lemma join_sp_snoc_sp (l : list jsstring) (w : jsstring) :
  Forall (fun c => c <> []) l -> join_sp (l ++ [w]) = snoc_sp (join_sp l) w.
Proof.
  intros Hall. destruct l as [|x l]; [reflexivity|].
  unfold snoc_sp. rewrite join_sp_truthy by (assumption || discriminate).
  now apply join_sp_snoc.
Qed.

Lemma tidy_nonempty (l : list jsstring) :
  Forall tidy_chunk l -> Forall (fun c => c <> []) l.
Proof. apply Forall_impl. now intros c [H _]. Qed.

Lemma proper_tidy (w : jsstring) : proper_word w -> tidy_chunk w.
Proof. intros [Hne Hf]. split; [assumption | now apply ws_free_no_edge]. Qed.

(** Proper words joined by single spaces have clean ends. *)
Lemma join_sp_proper (l : list jsstring) :
  Forall proper_word l -> l <> [] ->
  join_sp l <> [] /\ no_edge_ws (join_sp l).
Proof.
  induction 1 as [|w l Hw Hl IH]; [congruence|]. intros _.
  destruct l as [|y l].
  - destruct (proper_tidy _ Hw). now split.
  - destruct IH as [IHne [IHs IHe]]; [discriminate|].
    rewrite join_sp_cons by discriminate.
    destruct Hw as [Hne Hf]. split; [destruct w; [congruence|discriminate]|].
    split.
    + rewrite starts_ws_app by assumption. now apply ws_free_starts.
    + rewrite rev_app_distr. simpl rev. rewrite <- app_assoc.
      rewrite starts_ws_app; [assumption|].
      intros E. apply (f_equal (@rev _)) in E.
      rewrite rev_involutive in E. now apply IHne.
Qed.

(** An empty piece leaves the empty loop state as it is. *)
Lemma chunk_step_nil_nil (maxLength : Z) :
  chunk_step maxLength ([], []) [] = ([], []).
Proof. unfold chunk_step. cbn [truthy]. now rewrite andb_false_r. Qed.

Lemma no_edge_snoc_word (cur w : jsstring) :
  cur <> [] -> no_edge_ws cur -> proper_word w ->
  no_edge_ws (cur ++ SP :: w).
Proof.
  intros Hne [Hs He] [Hw Hf]. split.
  - now rewrite starts_ws_app.
  - rewrite rev_app_distr. simpl rev. rewrite <- !app_assoc.
    rewrite starts_ws_app.
    + apply ws_free_starts. now apply Forall_rev.
    + intros E. apply (f_equal (@rev _)) in E.
      rewrite rev_involutive in E. now apply Hw.
Qed.

Lemma trim_snoc_sp (cur : jsstring) :
  cur <> [] -> no_edge_ws cur -> trim (cur ++ [SP]) = cur.
Proof.
  intros Hne [Hs He]. unfold trim, trimStart, trimEnd.
  rewrite (drop_ws_id (cur ++ [SP])) by now rewrite starts_ws_app.
  rewrite rev_app_distr. simpl. rewrite (drop_ws_id _ He).
  apply rev_involutive.
Qed.

Section Rejoin.

Variable maxLength : Z.

(** An iteration on a proper word appends that word to the text the loop
    state stands for. *)
Lemma chunk_step_join (st : chunker_state) (w : jsstring) :
  proper_word w -> join_inv st ->
  join_inv (chunk_step maxLength st w)
  /\ flat (chunk_step maxLength st w) = snoc_sp (flat st) w.
Proof.
  destruct st as [chunks cur]. unfold join_inv, flat, chunk_step.
  cbn [fst snd]. intros Hw [Hch Hcur].
  assert (Hwt : truthy w = true) by (apply truthy_true; apply Hw).
  pose proof (tidy_nonempty _ Hch) as Hne.
  destruct (len (cur ++ SP :: w) >? maxLength)%Z;
    destruct (truthy cur) eqn:Ht; cbn [andb fst snd].
  - rewrite (trim_clean _ Hcur), Hwt.
    assert (Hc : tidy_chunk cur) by (split; [now apply truthy_true | assumption]).
    split.
    + split; [|apply proper_tidy, Hw].
      apply Forall_app. split; [assumption | now constructor].
    + apply join_sp_snoc_sp. apply Forall_app. split; [assumption|].
      constructor; [apply Hc | constructor].
  - rewrite Hwt, app_nil_r. split.
    + split; [assumption | apply proper_tidy, Hw].
    + now apply join_sp_snoc_sp.
  - apply truthy_true in Ht.
    assert (Ht' : truthy (cur ++ SP :: w) = true)
      by (apply truthy_true; destruct cur; [congruence | discriminate]).
    rewrite Ht'. split.
    + split; [assumption | now apply no_edge_snoc_word].
    + rewrite !join_sp_snoc_sp by assumption. unfold snoc_sp.
      destruct (truthy (join_sp chunks)) eqn:Hj.
      * assert (Hx : truthy (join_sp chunks ++ SP :: cur) = true)
          by (apply truthy_true; destruct (join_sp chunks); discriminate).
        rewrite Hx, <- app_assoc. reflexivity.
      * apply truthy_true in Ht. now rewrite Ht.
  - rewrite Hwt, app_nil_r. split.
    + split; [assumption | apply proper_tidy, Hw].
    + now apply join_sp_snoc_sp.
Qed.

Lemma fold_snoc_sp (l : list jsstring) :
  Forall proper_word l -> fold_left snoc_sp l [] = join_sp l.
Proof.
  induction l as [|w l IH] using rev_ind; [reflexivity|]. intros H.
  apply Forall_app in H as [Hl Hw].
  rewrite fold_left_app. simpl. rewrite IH by assumption.
  symmetry. apply join_sp_snoc_sp.
  revert Hl. apply Forall_impl. now intros c [Hc _].
Qed.

Lemma fold_chunk_step_join (mid : list jsstring) :
  Forall proper_word mid ->
  forall st, join_inv st ->
    join_inv (fold_left (chunk_step maxLength) mid st)
    /\ flat (fold_left (chunk_step maxLength) mid st)
       = fold_left snoc_sp mid (flat st).
Proof.
  induction 1 as [|w mid Hw Hmid IH]; intros st Hst; [now split|].
  cbn [fold_left]. destruct (chunk_step_join st w Hw Hst) as [Hinv Hflat].
  destruct (IH _ Hinv) as [Hinv' Hflat']. split; [assumption|].
  now rewrite Hflat', Hflat.
Qed.

(** The chunks pushed in the end, joined, are the text the state stood
    for. *)
Lemma join_chunk_finish (st : chunker_state) :
  join_inv st -> join_sp (chunk_finish st) = flat st.
Proof.
  destruct st as [chunks cur]. unfold join_inv, flat, chunk_finish.
  cbn [fst snd]. intros [_ Hcur].
  destruct (truthy cur); [now rewrite (trim_clean _ Hcur)|].
  now rewrite app_nil_r.
Qed.

(** A trailing empty piece changes nothing in the result. *)
Lemma chunk_finish_step_nil (st : chunker_state) :
  join_inv st ->
  chunk_finish (chunk_step maxLength st []) = chunk_finish st.
Proof.
  destruct st as [chunks cur]. unfold join_inv, chunk_finish, chunk_step.
  cbn [fst snd]. intros [_ Hcur].
  destruct (len (cur ++ [SP]) >? maxLength)%Z;
    destruct (truthy cur) eqn:Ht; cbn [andb truthy]; try reflexivity.
  apply truthy_true in Ht.
  assert (Ht' : truthy (cur ++ [SP]) = true)
    by (apply truthy_true; destruct cur; [congruence | discriminate]).
  rewrite Ht'. now rewrite trim_snoc_sp, (trim_clean _ Hcur).
Qed.

(** The loop over the pieces of a text: an empty first and an empty last
    piece are ignored, and the proper words in between come out joined by
    single spaces. *)
Lemma join_chunks_of_pieces (pre mid post : list jsstring) :
  pre = [] \/ pre = [[]] -> post = [] \/ post = [[]] ->
  Forall proper_word mid ->
  join_sp (chunk_finish
             (fold_left (chunk_step maxLength) (pre ++ mid ++ post) ([], [])))
  = join_sp mid.
Proof.
  intros Hpre Hpost Hmid. rewrite !fold_left_app.
  assert (E : fold_left (chunk_step maxLength) pre ([], []) = ([], [])).
  { destruct Hpre as [-> | ->]; [reflexivity|].
    cbn [fold_left]. apply chunk_step_nil_nil. }
  rewrite E.
  assert (H0 : join_inv ([], [])) by (repeat split; constructor).
  destruct (fold_chunk_step_join mid Hmid _ H0) as [Hinv Hflat].
  change (flat ([], [])) with (@nil code_unit) in Hflat.
  rewrite fold_snoc_sp in Hflat by assumption.
  destruct Hpost as [-> | ->]; cbn [fold_left].
  - now rewrite join_chunk_finish.
  - now rewrite chunk_finish_step_nil, join_chunk_finish.
Qed.

End Rejoin.

(** No piece is longer than the string it was cut from. *)
Lemma split_ws_len (s w : jsstring) :
  In w (split_ws s) -> (len w <= len s)%Z.
Proof.
  revert w. induction s as [|c s IH]; intros w; simpl split_ws.
  - intros [<- | []]. lia.
  - rewrite (len_cons c s). destruct (is_ws c).
    + destruct (starts_ws s).
      * intros H. apply IH in H. lia.
      * intros [<- | H]; [pose proof (len_nonneg s); rewrite len_nil; lia|].
        apply IH in H. lia.
    + destruct (split_ws s) as [|v vs]; cbn [cons_head In].
      * intros [<- | []]. rewrite len_cons, len_nil. pose proof (len_nonneg s).
        lia.
      * intros [<- | H].
        -- rewrite len_cons. specialize (IH v (or_introl eq_refl)). lia.
        -- specialize (IH w (or_intror H)). lia.
Qed.

(* ================================================================== *)
(** ** The pieces of a text and its normalisation *)
(* ================================================================== *)

(** The pieces of a text are proper words, but for a possibly empty first
    piece and a possibly empty last piece. *)
Lemma split_ws_shape (s : jsstring) :
  exists pre mid post,
    split_ws s = pre ++ mid ++ post
    /\ (pre = [] \/ pre = [[]])
    /\ (post = [] \/ post = [[]])
    /\ Forall proper_word mid.
Proof.
  induction s as [|c s (pre & mid & post & E & Hpre & Hpost & Hmid)].
  - exists [[]], [], []. repeat split; auto.
  - simpl split_ws. destruct (is_ws c) eqn:Hc.
    + destruct (starts_ws s) eqn:Hs.
      * exists pre, mid, post. auto.
      * destruct Hpre as [-> | ->].
        -- exists [[]], mid, post. rewrite E. repeat split; auto.
        -- (* an empty first piece without leading whitespace: s is empty *)
           destruct (split_ws_head_nil s _ E) as [-> | Hs'];
             [|congruence].
           exists [[]], [], [[]]. repeat split; auto.
    + rewrite E. destruct Hpre as [-> | ->].
      * destruct mid as [|w mid].
        -- destruct Hpost as [-> | ->].
           ++ exfalso. now apply (split_ws_not_nil s).
           ++ exists [], [[c]], []. repeat split; auto.
              constructor; [|constructor]. split; [discriminate|].
              now repeat constructor.
        -- exists [], ((c :: w) :: mid), post.
           inversion Hmid as [|? ? [Hw Hf] Hmid']; subst.
           repeat split; auto. constructor; [|assumption].
           split; [discriminate | now constructor].
      * exists [], ([c] :: mid), post. repeat split; auto.
        constructor; [|assumption]. split; [discriminate|].
        now repeat constructor.
Qed.

(** Replacing each whitespace run by one space is splitting at the runs
    and joining with single spaces. *)
Lemma collapse_ws_join (s : jsstring) : collapse_ws s = join_sp (split_ws s).
Proof.
  induction s as [|c s IH]; [reflexivity|]. simpl.
  destruct (is_ws c).
  - destruct (starts_ws s); [assumption|].
    rewrite join_sp_cons by apply split_ws_not_nil. now rewrite IH.
  - rewrite IH. pose proof (split_ws_not_nil s) as Hne.
    destruct (split_ws s) as [|w [|v ws]]; [congruence | reflexivity | reflexivity].
Qed.

(** Trimming the joined pieces leaves the proper words joined. *)
Lemma trim_join_pieces (pre mid post : list jsstring) :
  pre = [] \/ pre = [[]] -> post = [] \/ post = [[]] ->
  Forall proper_word mid ->
  trim (join_sp (pre ++ mid ++ post)) = join_sp mid.
Proof.
  intros Hpre Hpost Hmid. destruct mid as [|w mid].
  - destruct Hpre as [-> | ->], Hpost as [-> | ->]; reflexivity.
  - destruct (join_sp_proper (w :: mid) Hmid) as [Hne Hedge];
      [discriminate|].
    assert (Hpost' : trim (join_sp ((w :: mid) ++ post)) = join_sp (w :: mid)).
    { destruct Hpost as [-> | ->].
      - rewrite app_nil_r. now apply trim_clean.
      - rewrite join_sp_snoc by discriminate. now apply trim_snoc_sp. }
    destruct Hpre as [-> | ->]; [exact Hpost'|].
    change ([[]] ++ (w :: mid) ++ post) with ([] :: ((w :: mid) ++ post)).
    rewrite join_sp_cons by discriminate. exact Hpost'.
Qed.

(** Collapsing does nothing to a text whose only whitespace is the single
    spaces between proper words. *)
Lemma collapse_ws_free (w : jsstring) : ws_free w -> collapse_ws w = w.
Proof.
  induction 1 as [|c w Hc Hw IH]; [reflexivity|].
  simpl. now rewrite Hc, IH.
Qed.

Lemma collapse_ws_word_sp (w y : jsstring) :
  ws_free w -> starts_ws y = false ->
  collapse_ws (w ++ SP :: y) = w ++ SP :: collapse_ws y.
Proof.
  intros Hw Hy. induction Hw as [|c w Hc Hw IH].
  - simpl. now rewrite Hy.
  - simpl. now rewrite Hc, IH.
Qed.

Lemma collapse_ws_join_proper (l : list jsstring) :
  Forall proper_word l -> collapse_ws (join_sp l) = join_sp l.
Proof.
  induction 1 as [|w l Hw Hl IH]; [reflexivity|].
  destruct l as [|v l]; [apply collapse_ws_free, Hw|].
  rewrite join_sp_cons by discriminate.
  rewrite collapse_ws_word_sp, IH; [reflexivity | apply Hw |].
  apply (join_sp_proper (v :: l) Hl). discriminate.
Qed.

(** A normalised text is its own normalisation. *)
Lemma normalize_ws_join_proper (l : list jsstring) :
  Forall proper_word l -> normalize_ws (join_sp l) = join_sp l.
Proof.
  intros Hl. unfold normalize_ws. rewrite collapse_ws_join_proper by assumption.
  destruct l as [|w l]; [reflexivity|].
  apply trim_clean. apply (join_sp_proper (w :: l) Hl). discriminate.
Qed.

(** What the loop pushes is tidy, whatever the text. *)
Lemma loop_chunks_tidy (s : jsstring) (maxLength : Z) :
  Forall tidy_chunk
    (chunk_finish (fold_left (chunk_step maxLength) (split_ws s) ([], []))).
Proof.
  apply chunk_finish_tidy. apply fold_chunk_step_inv.
  - intros st w Hw. apply chunk_step_tidy.
    pose proof (split_ws_ws_free s) as Hfree.
    rewrite Forall_forall in Hfree. now apply Hfree.
  - split; [constructor | reflexivity].
Qed.

(* ================================================================== *)
(** ** TextChunker: the properties *)
(* ================================================================== *)

(** C4.  A text no longer than [maxLength] comes back as the one-element
    sequence holding the text itself, unchanged. *)
Theorem chunk_short_text (s : jsstring) (maxLength : Z) :
  (len s <= maxLength)%Z -> splitTextIntoChunks s maxLength = [s].
Proof.
  intros H. unfold splitTextIntoChunks.
  apply Z.leb_le in H. now rewrite H.
Qed.

Lemma chunk_short_text_witness :
  (len (lit " hello  world ") <= 200)%Z
  /\ splitTextIntoChunks (lit " hello  world ") 200 = [lit " hello  world "].
Proof.
  assert (H : (len (lit " hello  world ") <= 200)%Z) by (vm_compute; discriminate).
  split; [exact H | exact (chunk_short_text (lit " hello  world ") 200 H)].
Defined.

(** C5.  Every chunk has at most [maxLength] code units, except a chunk
    that is one whole whitespace-delimited word of the text which is itself
    longer than [maxLength]; and every such over-long word is a chunk on
    its own, in one piece. *)
Theorem chunks_within_maxLength (s : jsstring) (maxLength : Z) :
  Forall (fits_or_overlong_word maxLength (split_ws s))
         (splitTextIntoChunks s maxLength)
  /\ (forall w, In w (split_ws s) -> w <> [] -> (maxLength < len w)%Z ->
                In w (splitTextIntoChunks s maxLength)).
Proof.
  unfold splitTextIntoChunks.
  destruct (len s <=? maxLength)%Z eqn:Hlen.
  - apply Z.leb_le in Hlen. split.
    + constructor; [now left | constructor].
    + intros w Hw _ Hlong. apply split_ws_len in Hw. lia.
  - pose proof (split_ws_ws_free s) as Hfree. split.
    + apply chunk_finish_bound; [assumption|].
      apply fold_chunk_step_inv.
      * intros st w Hw. now apply chunk_step_bound.
      * split; [constructor | now left].
    + intros w Hw Hne Hlong. apply overlong_kept; try assumption.
      * rewrite Forall_forall in Hfree. now apply Hfree.
      * now right.
Qed.

(** C7, amended.  The chunker is total, and for the empty text it returns
    the one-element sequence holding the empty string whenever
    [maxLength] is not negative; only for a negative [maxLength] is the
    result the empty sequence. *)
Theorem chunk_empty_text (maxLength : Z) :
  (forall s, exists chunks, splitTextIntoChunks s maxLength = chunks)
  /\ splitTextIntoChunks [] maxLength
     = if (0 <=? maxLength)%Z then [[]] else [].
Proof.
  split; [intros s; eexists; reflexivity|].
  unfold splitTextIntoChunks. change (len []) with 0%Z.
  destruct (0 <=? maxLength)%Z; [reflexivity|].
  cbn [split_ws fold_left]. now rewrite chunk_step_nil_nil.
Qed.

(** C7 as stated fails: with the limit the sequencer uses, the empty text
    gives a sequence of one element. *)
Lemma chunk_empty_text_not_empty_sequence :
  splitTextIntoChunks (lit "") 200 = [lit ""]
  /\ splitTextIntoChunks (lit "") 200 <> [].
Proof. split; [reflexivity | discriminate]. Qed.

(** C10.  For a text longer than [maxLength], every chunk is non-empty and
    has no whitespace at either end; a text of whitespace only gives no
    chunk at all. *)
Theorem long_text_chunks_tidy (s : jsstring) (maxLength : Z) :
  (maxLength < len s)%Z ->
  Forall tidy_chunk (splitTextIntoChunks s maxLength)
  /\ (all_ws s -> splitTextIntoChunks s maxLength = []).
Proof.
  intros Hlen. unfold splitTextIntoChunks.
  apply Z.leb_gt in Hlen. rewrite Hlen. split.
  - apply loop_chunks_tidy.
  - intros Hws. destruct (split_ws_all_ws s Hws) as [-> | ->];
      cbn [fold_left]; now rewrite ?chunk_step_nil_nil.
Qed.

Lemma long_text_chunks_tidy_witness :
  (2 < len (lit "   "))%Z
  /\ all_ws (lit "   ")
  /\ splitTextIntoChunks (lit "   ") 2 = [].
Proof.
  assert (H : (2 < len (lit "   "))%Z) by reflexivity.
  assert (Hws : all_ws (lit "   ")) by (repeat constructor).
  split; [exact H|]. split; [exact Hws|].
  exact (proj2 (long_text_chunks_tidy (lit "   ") 2 H) Hws).
Defined.

(** C6, amended.  For a text longer than [maxLength], the chunks joined
    with single spaces are the text with every maximal whitespace run
    replaced by one space and the whitespace at its ends removed.  For a
    text no longer than [maxLength] the join is the text itself, as it
    stands.  In both cases the join and the text have the same
    normalisation. *)
Theorem chunks_rejoin (s : jsstring) (maxLength : Z) :
  join_sp (splitTextIntoChunks s maxLength)
  = (if (len s <=? maxLength)%Z then s else normalize_ws s)
  /\ normalize_ws (join_sp (splitTextIntoChunks s maxLength))
     = normalize_ws s.
Proof.
  unfold splitTextIntoChunks.
  destruct (len s <=? maxLength)%Z; [now split|].
  destruct (split_ws_shape s) as (pre & mid & post & E & Hpre & Hpost & Hmid).
  assert (Hn : normalize_ws s = join_sp mid).
  { unfold normalize_ws. rewrite collapse_ws_join, E.
    now apply trim_join_pieces. }
  cbv zeta. rewrite E, join_chunks_of_pieces by assumption.
  rewrite Hn. split; [reflexivity|].
  now apply normalize_ws_join_proper.
Qed.

(** C6 as stated fails: a short text is returned as it stands, so its
    whitespace runs are not normalised by chunking and joining. *)
Lemma chunks_rejoin_not_normalized :
  join_sp (splitTextIntoChunks (lit "a  b") 200) = lit "a  b"
  /\ normalize_ws (lit "a  b") = lit "a b"
  /\ join_sp (splitTextIntoChunks (lit "a  b") 200)
     <> normalize_ws (lit "a  b").
Proof. repeat split. discriminate. Qed.

(* ================================================================== *)
(** ** Pieces and tokens *)
(* ================================================================== *)

Lemma starts_ws_rev_cons (c : code_unit) (s : jsstring) :
  starts_ws (rev (c :: s))
  = match s with [] => is_ws c | _ :: _ => starts_ws (rev s) end.
Proof.
  destruct s as [|d s]; [reflexivity|].
  change (rev (c :: d :: s)) with (rev (d :: s) ++ [c]).
  apply starts_ws_app. intros E. apply (f_equal (@List.length _)) in E.
  rewrite length_rev in E. discriminate.
Qed.

(** [split(/\s+/)] gives one piece per token, one more for an empty text
    or leading whitespace, and one more for trailing whitespace. *)
Lemma split_ws_length (s : jsstring) :
  List.length (split_ws s)
  = count_tokens s + b2n (negb (truthy s) || starts_ws s)
    + b2n (starts_ws (rev s)).
Proof.
  induction s as [|c s IH]; [reflexivity|].
  rewrite starts_ws_rev_cons. cbn [split_ws count_tokens truthy negb orb starts_ws].
  destruct (is_ws c) eqn:Hc.
  - destruct s as [|d s]; [reflexivity|].
    cbn [starts_ws truthy negb orb] in *.
    destruct (is_ws d); cbn [List.length b2n] in *; lia.
  - assert (Hl : List.length (cons_head c (split_ws s))
                 = List.length (split_ws s)).
    { pose proof (split_ws_not_nil s).
      destruct (split_ws s); [congruence | reflexivity]. }
    rewrite Hl, IH. destruct s as [|d s]; [reflexivity|].
    cbn [starts_ws truthy negb orb b2n].
    destruct (is_ws d); cbn [b2n]; lia.
Qed.

(** On a tidy chunk the program's count is the number of tokens. *)
Lemma tokenCount_tidy (c : jsstring) :
  tidy_chunk c -> tokenCount c = count_tokens c.
Proof.
  intros [Hne [Hs He]]. unfold tokenCount. rewrite split_ws_length, Hs, He.
  apply truthy_true in Hne. rewrite Hne. simpl. lia.
Qed.

(** The chunks the sequencer is given are tidy: the translation is
    trimmed when it is stored, and the sequencer does not start on an empty
    one. *)
Lemma sequencer_chunks_tidy (thai : jsstring) (maxLength : Z) :
  thai <> [] -> no_edge_ws thai ->
  Forall tidy_chunk (splitTextIntoChunks thai maxLength).
Proof.
  intros Hne Hedge. unfold splitTextIntoChunks.
  destruct (len thai <=? maxLength)%Z.
  - constructor; [now split | constructor].
  - apply loop_chunks_tidy.
Qed.

(* ================================================================== *)
(** ** The sequencer's bookkeeping *)
(* ================================================================== *)

Lemma forEach_from_length {A : Type} (f : A -> nat -> A) (l : list A) :
  forall i, List.length (forEach_from f i l) = List.length l.
Proof. induction l as [|x l IH]; intros i; simpl; [|rewrite IH]; reflexivity. Qed.

Lemma forEach_from_nth {A : Type} (f : A -> nat -> A) (d : A) (l : list A) :
  forall i k, k < List.length l ->
    nth k (forEach_from f i l) d = f (nth k l d) (i + k).
Proof.
  induction l as [|x l IH]; intros i k Hk; simpl in Hk; [lia|].
  destruct k as [|k]; simpl.
  - now rewrite Nat.add_0_r.
  - rewrite IH by lia. f_equal. lia.
Qed.

Lemma forEach_length {A : Type} (f : A -> nat -> A) (l : list A) :
  List.length (forEach f l) = List.length l.
Proof. apply forEach_from_length. Qed.

Lemma forEach_nth {A : Type} (f : A -> nat -> A) (d : A) (l : list A) (k : nat) :
  k < List.length l -> nth k (forEach f l) d = f (nth k l d) k.
Proof. intros H. unfold forEach. now rewrite forEach_from_nth. Qed.

(** The loop over [i < chunkIndex] adds up the word counts of the chunks
    before the current one. *)
Lemma sum_words_before_spec (cs : list jsstring) (i : nat) :
  i <= List.length cs ->
  sum_words_before cs i = list_sum (map tokenCount (firstn i cs)).
Proof.
  unfold sum_words_before. induction i as [|i IH]; intros Hi; [reflexivity|].
  rewrite seq_S, fold_left_app. cbn [fold_left Nat.add].
  rewrite IH by lia.
  rewrite <- (firstn_skipn i cs) at 3.
  destruct (skipn i cs) as [|c rest] eqn:Hskip.
  - apply (f_equal (@List.length _)) in Hskip.
    rewrite length_skipn in Hskip. simpl in Hskip. lia.
  - assert (Hnth : nth i cs [] = c).
    { rewrite <- (firstn_skipn i cs), Hskip.
      rewrite app_nth2; rewrite length_firstn, Nat.min_l by lia; [|lia].
      now rewrite Nat.sub_diag. }
    rewrite Hnth.
    assert (Hf : firstn (S i) (firstn i cs ++ c :: rest) = firstn i cs ++ [c]).
    { rewrite firstn_app, length_firstn, Nat.min_l by lia.
      replace (S i - i) with 1 by lia.
      rewrite firstn_all2 by (rewrite length_firstn; lia). reflexivity. }
    rewrite Hf, map_app, list_sum_app. simpl. unfold tokenCount. lia.
Qed.

(* ================================================================== *)
(** ** HighlightSequencer: the properties *)
(* ================================================================== *)

(** C3.  When [playNextChunk] starts chunk [i], the start of the chunk's
    word range is the sum of the word counts of chunks [0..i-1]; and once
    the chunk's audio reports [play], exactly the word spans at positions
    [start <= k < start + count] are highlighted, [count] being the word
    count of chunk [i], and every other span is not, whatever was
    highlighted before.  The word count is the number of pieces of
    [split(/\s+/)], which for the tidy chunks the sequencer is given is the
    number of whitespace-delimited tokens.  The chunk starts when its text
    is well formed, so that the address of its audio can be built. *)
Theorem chunk_highlight_range (st : state) :
  chunkIndex st < List.length (chunks st) ->
  isWellFormed (nth (chunkIndex st) (chunks st) []) = true ->
  let i := chunkIndex st in
  let start := list_sum (map tokenCount (firstn i (chunks st))) in
  let count := tokenCount (nth i (chunks st) []) in
  exists started,
    playNextChunk st = Some started
    /\ let playing := handle EvPlay started in
       tts started = Some (mkAudio start count)
       /\ List.length (thaiWords playing) = List.length (thaiWords st)
       /\ (forall k, k < List.length (thaiWords st) ->
             (nth k (thaiWords playing) false = true
              <-> start <= k < start + count))
       /\ (Forall tidy_chunk (chunks st) ->
           start = list_sum (map count_tokens (firstn i (chunks st)))
           /\ count = count_tokens (nth i (chunks st) [])).
Proof.
  intros Hi Hwf i start count.
  assert (Hp : playNextChunk st
               = Some (emit (TtsPlay (nth i (chunks st) []))
                         (set_tts (Some (mkAudio start count)) st))).
  { unfold playNextChunk. apply Nat.leb_gt in Hi. rewrite Hi.
    cbv zeta. rewrite Hwf.
    unfold start, count, tokenCount, i. rewrite <- sum_words_before_spec by (apply Nat.leb_gt in Hi; lia).
    reflexivity. }
  eexists. split; [exact Hp|]. simpl. split; [reflexivity|].
  split; [apply forEach_length|]. split.
  - intros k Hk. rewrite forEach_nth by assumption.
    unfold add_highlighted, remove_highlighted.
    rewrite <- (Nat.leb_le start k), <- (Nat.ltb_lt k (start + count)).
    destruct (start <=? k); destruct (k <? start + count); simpl;
      intuition congruence.
  - intros Htidy. rewrite Forall_forall in Htidy. split.
    + unfold start. f_equal. apply map_ext_in. intros c Hc.
      apply tokenCount_tidy, Htidy.
      rewrite <- (firstn_skipn i (chunks st)). apply in_or_app. now left.
    + apply tokenCount_tidy, Htidy. now apply nth_In.
Qed.

Lemma chunk_highlight_range_witness :
  chunkIndex (set_chunkIndex 1 two_chunks)
    < List.length (chunks (set_chunkIndex 1 two_chunks))
  /\ isWellFormed (nth (chunkIndex (set_chunkIndex 1 two_chunks))
                       (chunks (set_chunkIndex 1 two_chunks)) []) = true
  /\ exists started,
       playNextChunk (set_chunkIndex 1 two_chunks) = Some started
       /\ tts started = Some (mkAudio 2 3)
       /\ thaiWords (handle EvPlay started)
          = [false; false; true; true; true].
Proof.
  assert (H : chunkIndex (set_chunkIndex 1 two_chunks)
              < List.length (chunks (set_chunkIndex 1 two_chunks)))
    by (simpl; lia).
  assert (W : isWellFormed (nth (chunkIndex (set_chunkIndex 1 two_chunks))
                                (chunks (set_chunkIndex 1 two_chunks)) [])
              = true) by reflexivity.
  split; [exact H|]. split; [exact W|].
  destruct (chunk_highlight_range (set_chunkIndex 1 two_chunks) H W)
    as (started & E & Ht & _).
  exists started. split; [exact E|]. split; [exact Ht|].
  injection E as <-. reflexivity.
Defined.

Example two_chunks_scenario :
  thaiWords (run [EvPlay] (started_chunk two_chunks))
  = [true; true; false; false; false]
  /\ thaiWords (run [EvPlay; EvEnded; EvPlay] (started_chunk two_chunks))
     = [false; false; true; true; true]
  /\ thaiWords (run [EvPlay; EvEnded; EvPlay; EvEnded]
                    (started_chunk two_chunks))
     = [false; false; false; false; false]
  /\ resolved (run [EvPlay; EvEnded; EvPlay; EvEnded]
                   (started_chunk two_chunks))
     = true.
Proof. repeat split. Qed.

(** C8.  With an empty translation, or the text that stands for a failed
    translation, the sequencer resolves at once: no synthesis request, no
    playback, no fallback speech, and no change to any highlight; and the
    whole cycle ends without a synthesis request. *)
Theorem degenerate_text_resolves (st : state) :
  currentThai st = [] \/ currentThai st = lit "Translation failed" ->
  resolved (speakThaiWithHighlighting st) = true
  /\ log (speakThaiWithHighlighting st) = log st
  /\ tts (speakThaiWithHighlighting st) = tts st
  /\ fallbacks (speakThaiWithHighlighting st) = fallbacks st
  /\ thaiWords (speakThaiWithHighlighting st) = thaiWords st
  /\ (cycle st = AwaitSpeak -> cycle (speakThaiWithHighlighting st) = Finished).
Proof.
  intros H. unfold speakThaiWithHighlighting.
  assert (E : negb (truthy (currentThai st))
              || streq (currentThai st) (lit "Translation failed") = true).
  { destruct H as [-> | ->]; reflexivity. }
  rewrite E. unfold resolve. simpl.
  destruct (cycle st); repeat split; try reflexivity; discriminate.
Qed.

Lemma degenerate_text_resolves_witness :
  (currentThai (run [EvBlobEnded] (playbackCycle (ready 7 [] []))) = []
   \/ currentThai (run [EvBlobEnded] (playbackCycle (ready 7 [] [])))
      = lit "Translation failed")
  /\ log (run [EvBlobEnded; EvTimeout] (playbackCycle (ready 7 [] [])))
     = [PlayBlob 7; SetTimeout 500]
  /\ cycle (run [EvBlobEnded; EvTimeout] (playbackCycle (ready 7 [] [])))
     = Finished.
Proof.
  assert (H : currentThai (set_cycle AwaitSpeak
                (run [EvBlobEnded] (playbackCycle (ready 7 [] [])))) = []
              \/ currentThai (set_cycle AwaitSpeak
                   (run [EvBlobEnded] (playbackCycle (ready 7 [] []))))
                 = lit "Translation failed") by (left; reflexivity).
  split; [exact H|].
  pose proof (degenerate_text_resolves _ H) as (_ & Hlog & _ & _ & _ & Hcyc).
  split; [exact Hlog | exact (Hcyc eq_refl)].
Defined.

(** [playNextChunk] finds the chunks exhausted, clears every highlight and
    resolves; or it starts the audio of the current chunk; or it throws,
    the current chunk being ill formed. *)
Lemma playNextChunk_cases (st : state) :
  (List.length (chunks st) <= chunkIndex st
   /\ playNextChunk st
      = Some (resolve (set_thaiWords
                         (forEach (fun word _ => remove_highlighted word)
                                  (thaiWords st)) st)))
  \/ (chunkIndex st < List.length (chunks st)
      /\ isWellFormed (nth (chunkIndex st) (chunks st) []) = true
      /\ exists a,
           playNextChunk st
           = Some (emit (TtsPlay (nth (chunkIndex st) (chunks st) []))
                        (set_tts (Some a) st)))
  \/ (chunkIndex st < List.length (chunks st)
      /\ isWellFormed (nth (chunkIndex st) (chunks st) []) = false
      /\ playNextChunk st = None).
Proof.
  unfold playNextChunk.
  destruct (List.length (chunks st) <=? chunkIndex st) eqn:E.
  - left. apply Nat.leb_le in E. now split.
  - right. apply Nat.leb_gt in E. cbv zeta.
    destruct (isWellFormed (nth (chunkIndex st) (chunks st) [])).
    + left. split; [assumption|]. split; [reflexivity|].
      eexists. reflexivity.
    + right. now repeat split.
Qed.

(** The path through exhaustion: when the last chunk has ended, no word
    span is highlighted once the promise resolves. *)
Lemma exhausted_clears_highlighting (st : state) :
  List.length (chunks st) <= chunkIndex st ->
  exists fin,
    playNextChunk st = Some fin
    /\ resolved fin = true
    /\ List.length (thaiWords fin) = List.length (thaiWords st)
    /\ forall k, nth k (thaiWords fin) false = false.
Proof.
  intros H.
  destruct (playNextChunk_cases st) as [[_ E] | [[H' _] | [H' _]]]; [|lia|lia].
  eexists. split; [exact E|]. unfold resolve. simpl.
  assert (Hn : forall k, nth k (forEach (fun (word : bool) (_ : nat) =>
                                           remove_highlighted word)
                                        (thaiWords st)) false = false).
  { intros k. destruct (Nat.lt_ge_cases k (List.length (thaiWords st))).
    - now rewrite forEach_nth.
    - apply nth_overflow. now rewrite forEach_length. }
  destruct (cycle st); simpl; (split; [reflexivity|]);
    (split; [apply forEach_length | exact Hn]).
Qed.

(** C2, the failing path.  One chunk, two word spans: the chunk's audio
    reports [play], then [error]; the fallback utterance ends.  The promise
    is resolved and the cycle is over, yet both spans are still
    highlighted. *)
Theorem fallback_leaves_highlighting :
  let fin := run [EvPlay; EvError; EvFallbackDone]
                 (speaking (lit "a b") [false; false]) in
  log fin = [TtsPlay (lit "a b"); WebSpeech (lit "a b")]
  /\ resolved fin = true
  /\ cycle fin = Finished
  /\ thaiWords fin = [true; true].
Proof. repeat split. Qed.

(** *** After a failure *)

Lemma tts_requests_app (a b : list effect) :
  tts_requests (a ++ b) = tts_requests a ++ tts_requests b.
Proof. apply flat_map_app. Qed.

Lemma tts_requests_fallbacks (thai : jsstring) (n : nat) :
  tts_requests (repeat (WebSpeech thai) n) = [].
Proof. induction n as [|n IH]; [reflexivity | exact IH]. Qed.

(** A turn of the event loop that is not the [ended] of the chunk audio
    leaves the audio and the chunk index where they are, and asks nothing
    of the host but the fallback, when the turn is a failure
    notification. *)
Lemma no_ended_handle (e : event) (st : state) (a : audio) :
  cycle st = AwaitSpeak \/ cycle st = Finished ->
  tts st = Some a -> e <> EvEnded ->
  (cycle (handle e st) = AwaitSpeak \/ cycle (handle e st) = Finished)
  /\ tts (handle e st) = Some a
  /\ chunkIndex (handle e st) = chunkIndex st
  /\ currentThai (handle e st) = currentThai st
  /\ log (handle e st)
     = log st ++ repeat (WebSpeech (currentThai st)) (b2n (is_failure e)).
Proof.
  intros Hc Ht He.
  destruct e; simpl; try congruence; rewrite ?Ht; simpl;
    rewrite ?app_nil_r.
  1-3: destruct Hc as [Hc | Hc]; rewrite Hc; simpl; rewrite ?app_nil_r;
    repeat split; auto.
  - (* play *) now repeat split.
  - (* error *) now repeat split.
  - (* rejected play() *) now repeat split.
  - (* the fallback utterance is over *)
    destruct (fallbacks st) as [|n]; simpl; rewrite ?app_nil_r;
      [now repeat split|].
    unfold resolve. simpl.
    destruct Hc as [Hc | Hc]; rewrite Hc; simpl; rewrite ?app_nil_r;
      repeat split; auto.
Qed.

Lemma no_ended_run (evs : list event) :
  forall (st : state) (a : audio),
    cycle st = AwaitSpeak \/ cycle st = Finished ->
    tts st = Some a -> no_ended evs ->
    chunkIndex (run evs st) = chunkIndex st
    /\ tts (run evs st) = Some a
    /\ log (run evs st)
       = log st ++ repeat (WebSpeech (currentThai st))
                          (List.length (filter is_failure evs)).
Proof.
  induction evs as [|e evs IH]; intros st a Hc Ht Hev.
  - simpl. rewrite app_nil_r. now repeat split.
  - assert (He : e <> EvEnded) by (intros ->; apply Hev; now left).
    assert (Hev' : no_ended evs) by (intros H; apply Hev; now right).
    destruct (no_ended_handle e st a Hc Ht He) as (Hc' & Ht' & Hi & Hth & Hl).
    destruct (IH (handle e st) a Hc' Ht' Hev') as (Hi2 & Ht2 & Hl2).
    change (run (e :: evs) st) with (run evs (handle e st)).
    rewrite Hi2, Hi, Hl2, Hl, Hth. split; [reflexivity|].
    split; [exact Ht2|].
    rewrite <- app_assoc, <- repeat_app. f_equal. f_equal.
    simpl filter. destruct (is_failure e); simpl; lia.
Qed.

(** While the sequencer runs or is over, a turn of the event loop asks
    for a chunk only when it is the [ended] of the chunk audio, and then
    for one chunk at most. *)
Lemma requests_handle (e : event) (st : state) :
  cycle st = AwaitSpeak \/ cycle st = Finished ->
  (cycle (handle e st) = AwaitSpeak \/ cycle (handle e st) = Finished)
  /\ List.length (tts_requests (log (handle e st)))
     <= List.length (tts_requests (log st)) + b2n (is_ended e).
Proof.
  intros Hc.
  assert (Hres : forall st', cycle st' = AwaitSpeak \/ cycle st' = Finished ->
                             log st' = log st ->
                             (cycle (resolve st') = AwaitSpeak
                              \/ cycle (resolve st') = Finished)
                             /\ List.length (tts_requests (log (resolve st')))
                                <= List.length (tts_requests (log st)) + 0).
  { intros st' Hc' Hl. unfold resolve. simpl.
    destruct Hc' as [Hc' | Hc']; rewrite Hc'; simpl; rewrite Hl;
      (split; [auto | lia]). }
  destruct e; simpl.
  1-3: destruct Hc as [H | H]; rewrite H; simpl; (split; [auto | lia]).
  - destruct (tts st); simpl; (split; [auto | lia]).
  - destruct (tts st) as [a|]; [|split; [auto | lia]].
    unfold onended. cbv zeta. set (st0 := set_chunkIndex _ _).
    destruct (playNextChunk_cases st0)
      as [[_ E] | [(_ & _ & a' & E) | (_ & _ & E)]]; rewrite E.
    + destruct (Hres (set_thaiWords
                        (forEach (fun word _ => remove_highlighted word)
                                 (thaiWords st0)) st0) Hc eq_refl) as [H1 H2].
      split; [exact H1 | apply (Nat.le_trans _ _ _ H2); lia].
    + simpl. rewrite tts_requests_app, length_app. simpl.
      split; [exact Hc | lia].
    + simpl. split; [exact Hc | lia].
  - destruct (tts st); simpl; rewrite ?tts_requests_app, ?app_nil_r;
      (split; [auto | lia]).
  - destruct (tts st); simpl; rewrite ?tts_requests_app, ?app_nil_r;
      (split; [auto | lia]).
  - destruct (fallbacks st) as [|n]; [split; [auto | lia]|].
    apply (Hres (set_fallbacks n st) Hc eq_refl).
Qed.

Lemma requests_run (evs : list event) :
  forall st, cycle st = AwaitSpeak \/ cycle st = Finished ->
    List.length (tts_requests (log (run evs st)))
    <= List.length (tts_requests (log st))
       + List.length (filter is_ended evs).
Proof.
  induction evs as [|e evs IH]; intros st Hc; [simpl; lia|].
  destruct (requests_handle e st Hc) as [Hc' Hle].
  change (run (e :: evs) st) with (run evs (handle e st)).
  specialize (IH (handle e st) Hc').
  simpl filter. destruct (is_ended e); simpl in *; lia.
Qed.

(** C1.  When the audio of a chunk reports an error, or its [play()]
    promise rejects, the fallback speaker is called with the complete
    translated text.  The chunk sequence is abandoned: neither handler
    advances the chunk index or starts a chunk, and afterwards a chunk is
    requested only by [onended], one chunk for one [ended] at most.  So,
    as the host reports no [ended] for an audio that has failed, the chunk
    index stays where it was and nothing more is asked of the synthesis
    endpoint.  The only further requests are the fallback for the complete
    text once more, for every further failure notification (an audio whose
    source cannot be played reports both the error and the rejection). *)
Theorem chunk_failure_falls_back (st : state) (a : audio) (e : event) :
  cycle st = AwaitSpeak ->
  tts st = Some a ->
  e = EvError \/ e = EvRejected ->
  log (handle e st) = log st ++ [WebSpeech (currentThai st)]
  /\ chunkIndex (handle e st) = chunkIndex st
  /\ forall evs,
       List.length (tts_requests (log (run evs (handle e st))))
       <= List.length (tts_requests (log st))
          + List.length (filter is_ended evs)
       /\ (no_ended evs ->
           chunkIndex (run evs (handle e st)) = chunkIndex st
           /\ tts_requests (log (run evs (handle e st)))
              = tts_requests (log st)
           /\ log (run evs (handle e st))
              = log st ++ repeat (WebSpeech (currentThai st))
                                 (S (List.length (filter is_failure evs)))).
Proof.
  intros Hc Ht Hev.
  assert (Hne : e <> EvEnded) by (destruct Hev as [-> | ->]; discriminate).
  destruct (no_ended_handle e st a (or_introl Hc) Ht Hne)
    as (Hc' & Ht' & Hi & Hth & Hl).
  assert (Hf : is_failure e = true) by (destruct Hev as [-> | ->]; reflexivity).
  rewrite Hf in Hl. simpl in Hl.
  split; [exact Hl|]. split; [exact Hi|]. intros evs. split.
  - pose proof (requests_run evs (handle e st) Hc') as H.
    rewrite Hl, tts_requests_app in H. simpl in H.
    now rewrite app_nil_r in H.
  - intros Hevs.
    destruct (no_ended_run evs (handle e st) a Hc' Ht' Hevs)
      as (Hi2 & _ & Hl2).
    assert (Hlog : log (run evs (handle e st))
                   = log st
                     ++ repeat (WebSpeech (currentThai st))
                          (S (List.length (filter is_failure evs)))).
    { rewrite Hl2, Hl, Hth, <- app_assoc. reflexivity. }
    split; [now rewrite Hi2|]. split; [|exact Hlog].
    rewrite Hlog, tts_requests_app, tts_requests_fallbacks. apply app_nil_r.
Qed.

Lemma chunk_failure_falls_back_witness :
  cycle (started_chunk (set_chunkIndex 1 two_chunks)) = AwaitSpeak
  /\ tts (started_chunk (set_chunkIndex 1 two_chunks)) = Some (mkAudio 2 3)
  /\ no_ended [EvRejected; EvPlay; EvFallbackDone]
  /\ log (handle EvError (started_chunk (set_chunkIndex 1 two_chunks)))
     = [TtsPlay (lit "c d e"); WebSpeech (lit "a b c d e")]
  /\ log (run [EvRejected; EvPlay; EvFallbackDone]
              (handle EvError (started_chunk (set_chunkIndex 1 two_chunks))))
     = [TtsPlay (lit "c d e"); WebSpeech (lit "a b c d e");
        WebSpeech (lit "a b c d e")].
Proof.
  assert (H : no_ended [EvRejected; EvPlay; EvFallbackDone]).
  { intros [H | [H | [H | []]]]; discriminate H. }
  split; [reflexivity|]. split; [reflexivity|]. split; [exact H|].
  destruct (chunk_failure_falls_back
              (started_chunk (set_chunkIndex 1 two_chunks))
              (mkAudio 2 3) EvError
              eq_refl eq_refl (or_introl eq_refl))
    as (H1 & _ & H2).
  split; [exact H1|].
  exact (proj2 (proj2 (proj2 (H2 [EvRejected; EvPlay; EvFallbackDone]) H))).
Defined.

(** The specification's scenario: the text is cut into three chunks, the
    first plays to its end and the second fails, with both notifications.
    The fallback speaks the whole text, and the third chunk is never
    requested. *)
Example failure_on_chunk_2_of_3 :
  List.length (splitTextIntoChunks long_text 200) = 3
  /\ log (run [EvPlay; EvEnded; EvPlay; EvError; EvRejected; EvFallbackDone]
              (speaking long_text []))
     = [TtsPlay (nth 0 (splitTextIntoChunks long_text 200) []);
        TtsPlay (nth 1 (splitTextIntoChunks long_text 200) []);
        WebSpeech long_text; WebSpeech long_text].
Proof. vm_compute. split; reflexivity. Qed.

(** The handlers carry no guard of their own: [onended] advances whatever
    the audio has reported before.  It is the host that reports no
    [ended] after a failure. *)
Example onended_is_not_guarded :
  log (run [EvError; EvEnded] (started_chunk two_chunks))
  = [TtsPlay (lit "a b"); WebSpeech (lit "a b c d e"); TtsPlay (lit "c d e")].
Proof. reflexivity. Qed.

(* ================================================================== *)
(** ** PlaybackCycleOrchestrator: the properties *)
(* ================================================================== *)

Section Cycle.

Variable b : blob.
Variable thai : jsstring.


Lemma resolve_frame (st : state) :
  currentThai (resolve st) = currentThai st
  /\ log (resolve st) = log st
  /\ tts (resolve st) = tts st
  /\ chunks (resolve st) = chunks st
  /\ thaiWords (resolve st) = thaiWords st
  /\ chunkIndex (resolve st) = chunkIndex st.
Proof. unfold resolve. simpl. destruct (cycle st); now repeat split. Qed.


Lemma reject_frame (st : state) :
  currentThai (reject st) = currentThai st
  /\ log (reject st) = log st
  /\ tts (reject st) = tts st
  /\ chunks (reject st) = chunks st
  /\ thaiWords (reject st) = thaiWords st
  /\ chunkIndex (reject st) = chunkIndex st.
Proof. unfold reject. simpl. destruct (cycle st); now repeat split. Qed.

Lemma reject_cycle (st : state) :
  cycle st = AwaitSpeak \/ cycle st = Finished ->
  cycle (reject st) = Finished.
Proof. unfold reject. simpl. intros [H | H]; rewrite H; exact H || reflexivity. Qed.











End Cycle.



(** A whole cycle on a short text: recorded audio, timer, one chunk, end. *)
Example playback_cycle_run :
  let fin := run [EvBlobEnded; EvTimeout; EvPlay; EvEnded]
                 (playbackCycle (ready 7 (lit "a b") [false; false])) in
  log fin = [PlayBlob 7; SetTimeout 500; TtsPlay (lit "a b")]
  /\ cycle fin = Finished
  /\ thaiWords fin = [false; false].
Proof. repeat split. Qed.

(* ================================================================== *)
(** ** More of the sequencer: what every run keeps *)
(* ================================================================== *)

Lemma web_speeches_app (a b : list effect) :
  web_speeches (a ++ b) = web_speeches a ++ web_speeches b.
Proof. apply flat_map_app. Qed.

Lemma firstn_snoc_nth {A : Type} (d : A) (l : list A) (i : nat) :
  i < List.length l -> firstn (S i) l = firstn i l ++ [nth i l d].
Proof.
  revert i. induction l as [|x l IH]; intros i Hi; simpl in Hi; [lia|].
  destruct i as [|i]; [reflexivity|].
  cbn [firstn nth app]. f_equal. apply IH. lia.
Qed.

Lemma resolve_flags (st : state) :
  resolved (resolve st) = true
  /\ fallbacks (resolve st) = fallbacks st
  /\ (cycle st = AwaitSpeak \/ cycle st = Finished ->
      cycle (resolve st) = Finished)
  /\ (cycle st <> AwaitSpeak -> cycle (resolve st) = cycle st).
Proof.
  unfold resolve. simpl.
  destruct (cycle st) eqn:E; simpl; rewrite ?E; repeat split;
    try reflexivity; try (intros [H | H]; congruence); congruence.
Qed.

Lemma resolve_threw (st : state) : threw (resolve st) = threw st.
Proof. unfold resolve. simpl. now destruct (cycle st). Qed.

Lemma reject_flags (st : state) :
  threw (reject st) = true
  /\ resolved (reject st) = resolved st
  /\ fallbacks (reject st) = fallbacks st.
Proof. unfold reject. simpl. destruct (cycle st); now repeat split. Qed.

Ltac order_done :=
  repeat split; auto; try congruence; try tauto; try lia;
  try (intros [? | ?]; congruence);
  try match goal with
      | H : _ = _ \/ _ = _ |- _ => destruct H; congruence
      end.

(** Starting the next chunk, when the chunks before it have been
    requested, keeps the order of requests. *)
Lemma order_inv_playNextChunk (thai : jsstring) (st st' : state) :
  cycle st = AwaitSpeak \/ cycle st = Finished ->
  currentThai st = thai ->
  chunks st = splitTextIntoChunks thai 200 ->
  tts st = None ->
  tts_requests (log st) = firstn (chunkIndex st) (chunks st) ->
  (cycle st = Finished <-> resolved st = true \/ threw st = true) ->
  threw st = false ->
  playNextChunk st = Some st' ->
  order_inv thai st'.
Proof.
  intros Hc Hthai Hch Htts Hreq Hfin Hthrew Hp.
  destruct (playNextChunk_cases st)
    as [[Hle E] | [(Hlt & _ & a & E) | (_ & _ & E)]];
    rewrite E in Hp; [| |discriminate]; injection Hp as <-; clear E.
  - set (st1 := set_thaiWords _ st).
    assert (Hc' : cycle st1 = AwaitSpeak \/ cycle st1 = Finished) by exact Hc.
    destruct (resolve_frame st1) as (E1 & E2 & E3 & E4 & _ & E6).
    destruct (resolve_flags st1) as (R1 & _ & R3 & _).
    specialize (R3 Hc'). pose proof (resolve_threw st1) as R5.
    unfold order_inv, live. rewrite E1, E2, E3, E4, E6, R1, R3, R5. simpl.
    rewrite Htts. rewrite Hthrew in *. simpl. rewrite Nat.add_0_r.
    order_done.
  - unfold order_inv, live. simpl. rewrite tts_requests_app. simpl.
    rewrite Hreq. replace (chunkIndex st + 1) with (S (chunkIndex st)) by lia.
    pose proof (firstn_snoc_nth (A:=jsstring) [] (chunks st) (chunkIndex st) Hlt)
      as Hs.
    rewrite Hs.
    destruct Hc as [Hc | Hc]; rewrite ?Hc in *; order_done.
Qed.

Lemma order_inv_speak (thai : jsstring) (st : state) :
  cycle st = AwaitSleep -> order_inv thai st ->
  order_inv thai (speakThaiWithHighlighting (set_cycle AwaitSpeak st)).
Proof.
  intros Hc (_ & Hthai & _ & Hreq & _ & Hearly & _).
  destruct (Hearly (or_intror Hc)) as (Htts & Hch0 & Hidx & Hfb & Hres & Hthr).
  unfold live in Hreq. rewrite Htts, Hch0 in Hreq. simpl in Hreq.
  rewrite firstn_nil in Hreq.
  unfold speakThaiWithHighlighting.
  destruct (negb (truthy (currentThai (set_cycle AwaitSpeak st))) || _).
  - unfold order_inv, live, resolve. simpl. rewrite Htts, Hch0, Hidx, Hreq, Hthr.
    order_done.
  - cbv zeta. set (st0 := set_chunkIndex 0 _).
    destruct (playNextChunk st0) as [st'|] eqn:Hp.
    + apply (order_inv_playNextChunk thai st0); simpl; auto.
      * now rewrite Hthai.
      * rewrite Hres, Hthr. split; [discriminate | intros [H | H]; discriminate].
    + destruct (playNextChunk_cases st0)
        as [[_ E] | [(_ & _ & a & E) | (Hlt & Hwf & _)]];
        [rewrite E in Hp; discriminate | rewrite E in Hp; discriminate |].
      destruct (reject_frame st0) as (E1 & E2 & E3 & E4 & _ & E6).
      destruct (reject_flags st0) as (R1 & R2 & R3).
      assert (Hc' : cycle (reject st0) = Finished)
        by (apply reject_cycle; now left).
      unfold order_inv, live. rewrite E1, E2, E3, E4, E6, R1, R2, R3, Hc'.
      subst st0. simpl in *. rewrite Htts, Hreq, Hthai. order_done.
Qed.

(** While a chunk audio is registered the sequencer is running (or the
    cycle is over) on the chunks of the translation, and its promise has
    not rejected. *)
Lemma order_inv_live (thai : jsstring) (st : state) (a : audio) :
  order_inv thai st -> tts st = Some a ->
  (cycle st = AwaitSpeak \/ cycle st = Finished)
  /\ chunks st = splitTextIntoChunks thai 200
  /\ ~ (cycle st = AwaitPlayAudio \/ cycle st = AwaitSleep)
  /\ threw st = false.
Proof.
  intros (Hidle & _ & Hch & _ & _ & Hearly & _ & Hthrew) Ht.
  assert (Hne : ~ (cycle st = AwaitPlayAudio \/ cycle st = AwaitSleep)).
  { intros H. destruct (Hearly H) as (H' & _). congruence. }
  split; [|split; [|split; [exact Hne|]]].
  - destruct (cycle st); auto; try congruence; exfalso; apply Hne; auto.
  - destruct Hch as [H | (_ & _ & H)]; [exact H | congruence].
  - destruct (threw st); [|reflexivity].
    destruct (Hthrew eq_refl) as (H & _). congruence.
Qed.

(** Every turn of the event loop keeps the order of requests. *)
Lemma order_inv_handle (thai : jsstring) (e : event) (st : state) :
  order_inv thai st -> order_inv thai (handle e st).
Proof.
  intros Hinv.
  pose proof Hinv as (Hidle & Hthai & Hch & Hreq & Hlive & Hearly & Hfin & Hthrew).
  destruct e; simpl.
  - (* recorded audio ended *)
    destruct (cycle st) eqn:Hc; try exact Hinv.
    destruct (Hearly (or_introl eq_refl))
      as (Htts & Hch0 & Hidx & Hfb & Hres & Hthr).
    unfold order_inv, live in *. simpl. rewrite tts_requests_app, app_nil_r.
    rewrite Htts in *. order_done.
  - (* recorded audio failed *)
    destruct (cycle st) eqn:Hc; try exact Hinv.
    destruct (Hearly (or_introl eq_refl))
      as (Htts & Hch0 & Hidx & Hfb & Hres & Hthr).
    unfold order_inv, live in *. simpl. rewrite tts_requests_app, app_nil_r.
    rewrite Htts in *. order_done.
  - (* the timer *)
    destruct (cycle st) eqn:Hc; try exact Hinv.
    apply order_inv_speak; [exact Hc | exact Hinv].
  - (* play *)
    destruct (tts st) as [a|] eqn:Ht; [|exact Hinv].
    unfold order_inv, live in *. simpl. rewrite Ht in *. order_done.
  - (* ended *)
    destruct (tts st) as [a|] eqn:Ht; [|exact Hinv].
    destruct (order_inv_live _ _ _ Hinv Ht) as (Hc & Hsp & Hne & Hthr).
    assert (Hreq' : tts_requests (log st)
                    = firstn (S (chunkIndex st)) (chunks st)).
    { rewrite Hreq. unfold live. rewrite Ht. simpl b2n.
      now rewrite Nat.add_1_r. }
    unfold onended. cbv zeta. set (st0 := set_chunkIndex _ _).
    destruct (playNextChunk st0) as [st'|] eqn:Hp.
    + apply (order_inv_playNextChunk thai st0);
        [exact Hc | exact Hthai | exact Hsp | reflexivity | exact Hreq'
        | exact Hfin | exact Hthr | exact Hp].
    + (* the handler dies of the exception *)
      clear Hearly Hch Hinv Hp.
      unfold order_inv, live. subst st0. simpl.
      rewrite Nat.add_0_r. rewrite Hthr in *. order_done.
  - (* error *)
    destruct (tts st) as [a|] eqn:Ht; [|exact Hinv].
    destruct (order_inv_live _ _ _ Hinv Ht) as (Hc & Hsp & Hne & Hthr).
    clear Hearly Hch Hinv.
    unfold order_inv, live, fallback in *. simpl.
    rewrite tts_requests_app, app_nil_r. rewrite Ht in *. order_done.
  - (* rejected play() *)
    destruct (tts st) as [a|] eqn:Ht; [|exact Hinv].
    destruct (order_inv_live _ _ _ Hinv Ht) as (Hc & Hsp & Hne & Hthr).
    clear Hearly Hch Hinv.
    unfold order_inv, live, fallback in *. simpl.
    rewrite tts_requests_app, app_nil_r. rewrite Ht in *. order_done.
  - (* the fallback utterance is over *)
    destruct (fallbacks st) as [|n] eqn:Hf; [exact Hinv|].
    assert (Hne : ~ (cycle st = AwaitPlayAudio \/ cycle st = AwaitSleep)).
    { intros H. destruct (Hearly H) as (_ & _ & _ & H' & _). congruence. }
    assert (Hc : cycle st = AwaitSpeak \/ cycle st = Finished).
    { destruct (cycle st); auto; try congruence; exfalso; apply Hne; auto. }
    assert (Hthr : threw st = false).
    { destruct (threw st); [|reflexivity].
      destruct (Hthrew eq_refl) as (_ & H & _). congruence. }
    set (st1 := set_fallbacks n st).
    destruct (resolve_frame st1) as (E1 & E2 & E3 & E4 & _ & E6).
    destruct (resolve_flags st1) as (R1 & _ & R3 & _).
    specialize (R3 Hc). pose proof (resolve_threw st1) as R5.
    unfold order_inv, live. rewrite E1, E2, E3, E4, E6, R1, R3, R5. simpl.
    unfold live in *. clear Hearly. rewrite Hthr in *. order_done.
Qed.

Lemma order_inv_run (thai : jsstring) (evs : list event) :
  forall st, order_inv thai st -> order_inv thai (run evs st).
Proof.
  induction evs as [|e evs IH]; intros st H; [exact H|].
  apply IH. now apply order_inv_handle.
Qed.

Lemma order_inv_start (b : blob) (thai : jsstring) (spans : list bool) :
  order_inv thai (playbackCycle (ready b thai spans)).
Proof. unfold order_inv, live. simpl. order_done. Qed.

(** A finished cycle stays finished. *)
Lemma finished_handle (e : event) (st : state) :
  cycle st = Finished -> cycle (handle e st) = Finished.
Proof.
  intros Hc.
  destruct e; simpl; rewrite ?Hc; auto.
  - destruct (tts st) as [a|]; exact Hc.
  - destruct (tts st) as [a|]; [|exact Hc].
    unfold onended. cbv zeta. set (st0 := set_chunkIndex _ _).
    destruct (playNextChunk_cases st0)
      as [[_ E] | [(_ & _ & a' & E) | (_ & _ & E)]]; rewrite E;
      [|exact Hc|exact Hc].
    apply resolve_flags. now right.
  - destruct (tts st) as [a|]; exact Hc.
  - destruct (tts st) as [a|]; exact Hc.
  - destruct (fallbacks st); [exact Hc|]. apply resolve_flags. now right.
Qed.

(** X1.  Whatever the host reports and in whatever order, the chunks
    requested from the synthesis endpoint are the first chunks of the
    translation cut at 200, each once and in order: no chunk is skipped,
    repeated or requested out of turn. *)
Theorem tts_requests_in_chunk_order (b : blob) (thai : jsstring)
  (spans : list bool) (evs : list event) :
  exists n,
    tts_requests (log (run evs (playbackCycle (ready b thai spans))))
    = firstn n (splitTextIntoChunks thai 200).
Proof.
  pose proof (order_inv_run thai evs _ (order_inv_start b thai spans))
    as (_ & _ & Hch & Hreq & _).
  rewrite Hreq. destruct Hch as [-> | (-> & _)].
  - eexists. reflexivity.
  - exists 0. now rewrite firstn_nil.
Qed.

(** X2.  A cycle is marked finished exactly when the sequencer's promise has
    settled: resolved, or rejected because its executor threw.  The two
    exclude each other, and a rejected promise means that the first chunk
    of the translation is ill formed and that no chunk was requested.
    Once finished, the cycle stays finished whatever the host reports
    later. *)
Theorem cycle_finishes_with_sequencer (b : blob) (thai : jsstring)
  (spans : list bool) (evs : list event) :
  let st := run evs (playbackCycle (ready b thai spans)) in
  (cycle st = Finished <-> resolved st = true \/ threw st = true)
  /\ (threw st = true ->
      resolved st = false
      /\ tts_requests (log st) = []
      /\ isWellFormed (nth 0 (splitTextIntoChunks thai 200) []) = false)
  /\ forall later, cycle st = Finished -> cycle (run later st) = Finished.
Proof.
  intros st.
  pose proof (order_inv_run thai evs _ (order_inv_start b thai spans))
    as (_ & _ & _ & Hreq & _ & _ & Hfin & Hthrew).
  fold st in Hreq, Hfin, Hthrew.
  split; [exact Hfin|]. split.
  - intros H. destruct (Hthrew H) as (Ht & _ & Hr & Hi & Hch & Hwf).
    split; [exact Hr|]. split; [|now rewrite <- Hch].
    rewrite Hreq, Hi. unfold live. now rewrite Ht.
  - intros later. generalize st. induction later as [|e later IH];
      intros st' H; [exact H|]. apply IH. now apply finished_handle.
Qed.

(** A translation that begins with a lone surrogate: the executor throws,
    the promise rejects and the cycle ends with nothing requested.  And a
    long translation whose last chunk holds a lone surrogate: the handler
    of [ended] throws, and the cycle is left waiting, the words of the
    chunk before still highlighted, with no audio and no utterance to wake
    it. *)
Example executor_throws :
  let fin := run [EvBlobEnded; EvTimeout]
                 (playbackCycle (ready 7 [55296%N] [false])) in
  log fin = [PlayBlob 7; SetTimeout 500]
  /\ cycle fin = Finished /\ threw fin = true /\ resolved fin = false.
Proof. repeat split. Qed.

Example onended_throws :
  let thai := long_text ++ SP :: [55296%N] in
  let fin := run [EvPlay; EvEnded; EvPlay; EvEnded]
                 (speaking thai (repeat false 46)) in
  List.length (splitTextIntoChunks thai 200) = 3
  /\ List.length (log fin) = 2
  /\ cycle fin = AwaitSpeak /\ tts fin = None /\ fallbacks fin = 0
  /\ resolved fin = false /\ threw fin = false
  /\ nth 20 (thaiWords fin) false = true.
Proof. vm_compute. repeat split. Qed.

Lemma forEach_from_const {A : Type} (v : A) (l : list A) :
  forall i, forEach_from (fun _ _ => v) i l = repeat v (List.length l).
Proof.
  induction l as [|x l IH]; intros i; [reflexivity|].
  simpl. now rewrite IH.
Qed.

Lemma run_app (evs evs' : list event) (st : state) :
  run (evs ++ evs') st = run evs' (run evs st).
Proof. apply fold_left_app. Qed.

Lemma clear_all_spans (l : list bool) :
  forEach (fun word _ => remove_highlighted word) l
  = repeat false (List.length l).
Proof. unfold forEach, remove_highlighted. apply forEach_from_const. Qed.

(** *** Well-formed text and its chunks *)

(** Whitespace is never a surrogate. *)
Lemma ws_not_surrogate (c : code_unit) :
  is_ws c = true ->
  is_high_surrogate c = false /\ is_low_surrogate c = false.
Proof.
  intros H. unfold is_high_surrogate, is_low_surrogate.
  assert (Hc : (c < 55296 \/ 57343 < c)%N).
  { unfold is_ws in H.
    rewrite !orb_true_iff, !andb_true_iff, !N.leb_le, !N.eqb_eq in H. lia. }
  split; apply andb_false_iff; rewrite !N.leb_gt; lia.
Qed.

Lemma well_formed_app (a b : jsstring) :
  forall p, well_formed_from p a = true ->
            well_formed_from p (a ++ b) = well_formed_from false b.
Proof.
  induction a as [|c a IH]; intros p H; simpl in *.
  - now destruct p.
  - destruct p.
    + apply andb_true_iff in H as [-> H]. simpl. now apply IH.
    + destruct (is_high_surrogate c); [now apply IH|].
      apply andb_true_iff in H as [-> H]. simpl. now apply IH.
Qed.

(** A whitespace unit cuts a well-formed string into well-formed parts. *)
Lemma well_formed_ws_split (a b : jsstring) (c : code_unit) :
  is_ws c = true ->
  forall p, well_formed_from p (a ++ c :: b) = true ->
            well_formed_from p a = true /\ well_formed_from false b = true.
Proof.
  intros Hc. destruct (ws_not_surrogate c Hc) as [Hh Hl].
  induction a as [|x a IH]; intros p H; simpl in *.
  - destruct p; rewrite ?Hh, Hl in H; simpl in H; [discriminate|]. now split.
  - destruct p.
    + apply andb_true_iff in H as [-> H]. simpl. now apply IH.
    + destruct (is_high_surrogate x); [now apply IH|].
      apply andb_true_iff in H as [-> H]. simpl. now apply IH.
Qed.

Lemma well_formed_drop_all_ws (a t : jsstring) :
  all_ws t -> isWellFormed (a ++ t) = true -> isWellFormed a = true.
Proof.
  intros Ht H. destruct Ht as [|c t Hc _].
  - now rewrite app_nil_r in H.
  - exact (proj1 (well_formed_ws_split a t c Hc false H)).
Qed.

Lemma drop_ws_prefix (r : jsstring) :
  exists t, r = t ++ drop_ws r /\ all_ws t.
Proof.
  induction r as [|c r (t & E & Ht)]; simpl.
  - exists []. split; [reflexivity | constructor].
  - destruct (is_ws c) eqn:Hc.
    + exists (c :: t). split; [simpl; now rewrite <- E | now constructor].
    + exists []. split; [reflexivity | constructor].
Qed.

Lemma all_ws_rev (t : jsstring) : all_ws t -> all_ws (rev t).
Proof.
  unfold all_ws. rewrite !Forall_forall. intros H c Hc.
  apply H. now apply in_rev.
Qed.

Lemma trim_well_formed (s : jsstring) :
  isWellFormed s = true -> isWellFormed (trim s) = true.
Proof.
  intros H. unfold trim, trimStart, trimEnd.
  assert (H1 : isWellFormed (drop_ws s) = true).
  { destruct (drop_ws_prefix s) as (t & E & Ht). rewrite E in H.
    clear E. induction Ht as [|c t Hc _ IH]; [exact H|].
    apply IH.
    exact (proj2 (well_formed_ws_split [] (t ++ drop_ws s) c Hc false H)). }
  destruct (drop_ws_prefix (rev (drop_ws s))) as (t & E & Ht).
  apply (well_formed_drop_all_ws _ (rev t)); [now apply all_ws_rev|].
  rewrite <- rev_app_distr, <- E, rev_involutive. exact H1.
Qed.

(** The pieces of a well-formed text are well formed. *)
Lemma split_ws_well_formed (s : jsstring) :
  forall p, well_formed_from p s = true ->
    exists w ws,
      split_ws s = w :: ws
      /\ well_formed_from p w = true
      /\ Forall (fun x => isWellFormed x = true) ws.
Proof.
  induction s as [|c s IH]; intros p H.
  - exists [], []. now repeat split.
  - simpl split_ws. destruct (is_ws c) eqn:Hc.
    + destruct (well_formed_ws_split [] s c Hc p H) as [Hp Hs].
      destruct (IH false Hs) as (w & ws & E & Hw & Hws). rewrite E.
      destruct (starts_ws s).
      * exists w, ws. split; [reflexivity|]. split; [|exact Hws].
        simpl in Hp. destruct p; [discriminate | exact Hw].
      * exists [], (w :: ws). split; [reflexivity|]. split; [exact Hp|].
        now constructor.
    + simpl in H. destruct p.
      * apply andb_true_iff in H as [Hlow H].
        destruct (IH false H) as (w & ws & E & Hw & Hws). rewrite E.
        exists (c :: w), ws. split; [reflexivity|]. split; [|exact Hws].
        simpl. now rewrite Hlow.
      * destruct (is_high_surrogate c) eqn:Hh.
        -- destruct (IH true H) as (w & ws & E & Hw & Hws). rewrite E.
           exists (c :: w), ws. split; [reflexivity|]. split; [|exact Hws].
           simpl. now rewrite Hh.
        -- apply andb_true_iff in H as [Hlow H].
           destruct (IH false H) as (w & ws & E & Hw & Hws). rewrite E.
           exists (c :: w), ws. split; [reflexivity|]. split; [|exact Hws].
           simpl. now rewrite Hh, Hlow.
Qed.

(** Every chunk of a well-formed text is well formed: the chunker cuts at
    whitespace only, never between the two units of a pair. *)
Lemma chunks_well_formed (s : jsstring) (maxLength : Z) :
  isWellFormed s = true ->
  Forall (fun c => isWellFormed c = true) (splitTextIntoChunks s maxLength).
Proof.
  intros H. unfold splitTextIntoChunks.
  destruct (len s <=? maxLength)%Z; [now repeat constructor|].
  assert (Hw : Forall (fun x => isWellFormed x = true) (split_ws s)).
  { destruct (split_ws_well_formed s false H) as (w & ws & -> & Hw & Hws).
    now constructor. }
  rewrite Forall_forall in Hw.
  set (P := fun st : chunker_state =>
              Forall (fun c => isWellFormed c = true) (fst st)
              /\ isWellFormed (snd st) = true).
  assert (HP : P (fold_left (chunk_step maxLength) (split_ws s) ([], []))).
  { apply fold_chunk_step_inv; [|split; [constructor | reflexivity]].
    intros [chunks cur] w Hin [Hchunks Hcur]. simpl in Hchunks, Hcur.
    assert (Hjoin : isWellFormed (cur ++ SP :: w) = true).
    { unfold isWellFormed. rewrite (well_formed_app _ _ _ Hcur).
      simpl. now apply Hw. }
    unfold chunk_step, P.
    destruct (_ && _); simpl.
    - split; [|now apply Hw]. apply Forall_app. split; [exact Hchunks|].
      constructor; [now apply trim_well_formed | constructor].
    - split; [exact Hchunks|]. destruct (truthy cur); [exact Hjoin|].
      now apply Hw. }
  destruct (fold_left _ _ _) as [chunks cur]. destruct HP as [Hchunks Hcur].
  simpl in *. destruct (truthy cur); [|exact Hchunks].
  apply Forall_app. split; [exact Hchunks|].
  constructor; [now apply trim_well_formed | constructor].
Qed.

(** A chunk that plays through: its range is highlighted, then
    [onended] runs. *)
Lemma run_plays_through (st : state) (a : audio) :
  tts st = Some a ->
  run plays_through st = onended (set_tts None (onplay a st)).
Proof.
  intros Ht. unfold plays_through, run. cbn [fold_left].
  assert (E : handle EvPlay st = onplay a st) by (simpl; now rewrite Ht).
  rewrite E. unfold handle.
  change (tts (onplay a st)) with (tts st). now rewrite Ht.
Qed.

(** From a chunk that is playing, chunks that all play through are
    requested one after the other, and at the end the promise resolves with
    no span highlighted. *)
Lemma run_plays_rest (rest : list jsstring) :
  forall (pre : list jsstring) (c : jsstring) (st : state) (a : audio),
    chunks st = pre ++ c :: rest ->
    chunkIndex st = List.length pre ->
    Forall (fun d => isWellFormed d = true) rest ->
    tts st = Some a ->
    cycle st = AwaitSpeak ->
    let fin := run (flat_map (fun _ => plays_through) (c :: rest)) st in
    log fin = log st ++ map TtsPlay rest
    /\ resolved fin = true
    /\ cycle fin = Finished
    /\ thaiWords fin = repeat false (List.length (thaiWords st)).
Proof.
  induction rest as [|c' rest IH]; intros pre c st a Hch Hidx Hwf Ht Hc fin;
    subst fin; cbn [flat_map]; rewrite run_app, (run_plays_through _ _ Ht);
    unfold onended; cbv zeta;
    set (st2 := set_chunkIndex _ _);
    assert (Hch2 : chunks st2 = chunks st) by reflexivity;
    assert (Hidx2 : chunkIndex st2 = S (chunkIndex st)) by reflexivity;
    assert (Hc2 : cycle st2 = cycle st) by reflexivity;
    assert (Hlog2 : log st2 = log st) by reflexivity;
    assert (Hw2 : List.length (thaiWords st2) = List.length (thaiWords st))
      by apply forEach_length;
    destruct (playNextChunk_cases st2)
      as [[Hle E] | [(Hlt & _ & a' & E) | (Hlt & Hbad & E)]];
    rewrite E; clear E;
    rewrite ?Hch2, ?Hidx2, ?Hch, ?Hidx, ?length_app in *;
    cbn [List.length] in *; try lia.
  - (* the last chunk has ended *)
    unfold run. cbn [fold_left map]. set (st3 := set_thaiWords _ st2).
    destruct (resolve_frame st3) as (_ & -> & _ & _ & -> & _).
    destruct (resolve_flags st3) as (-> & _ & R3 & _).
    rewrite R3 by (left; change (cycle st3) with (cycle st2); congruence).
    change (log st3) with (log st2). rewrite Hlog2, app_nil_r.
    repeat split. subst st3. cbn [thaiWords set_thaiWords].
    now rewrite clear_all_spans, Hw2.
  - (* the next chunk starts *)
    set (st3 := emit _ _).
    destruct (IH (pre ++ [c]) c' st3 a') as (Hlog & Hres & Hcyc & Hw);
      try assumption; try reflexivity.
    + change (chunks st3) with (chunks st2).
      now rewrite Hch2, ?Hch, <- app_assoc.
    + change (chunkIndex st3) with (chunkIndex st2).
      rewrite Hidx2, ?Hidx, length_app. simpl. lia.
    + now inversion Hwf.
    + cbn [flat_map] in Hlog, Hres, Hcyc, Hw.
      rewrite Hlog, Hres, Hcyc, Hw.
      change (thaiWords st3) with (thaiWords st2).
      subst st3. cbn [log emit].
      change (log (set_tts (Some a') st2)) with (log st2).
      rewrite Hw2, Hlog2, <- app_assoc.
      rewrite app_nth2 by lia.
      replace (S (List.length pre) - List.length pre) with 1 by lia.
      now repeat split.
  - (* the next chunk is well formed *)
    rewrite app_nth2 in Hbad by lia.
    replace (S (List.length pre) - List.length pre) with 1 in Hbad by lia.
    inversion Hwf as [|? ? Hc' _]. simpl in Hbad. congruence.
Qed.

(** X3.  When the translation is well formed and every chunk plays through,
    the sequencer requests every chunk of the translation, once each and
    in order, then resolves; the cycle is over and no word span is left
    highlighted. *)
Theorem sequencer_plays_all_chunks (thai : jsstring) (spans : list bool) :
  thai <> [] -> thai <> lit "Translation failed" ->
  isWellFormed thai = true ->
  let cs := splitTextIntoChunks thai 200 in
  let fin := run (flat_map (fun _ => plays_through) cs)
                 (speaking thai spans) in
  log fin = map TtsPlay cs
  /\ resolved fin = true
  /\ cycle fin = Finished
  /\ thaiWords fin = repeat false (List.length spans).
Proof.
  intros Hne Hnf Hwf cs fin.
  pose proof (chunks_well_formed thai 200 Hwf) as Hcs. fold cs in Hcs.
  set (st0 := set_chunkIndex 0
                (set_chunks cs (set_cycle AwaitSpeak (ready 0 thai spans)))).
  assert (E : speaking thai spans
              = match playNextChunk st0 with
                | Some st' => st'
                | None => reject st0
                end).
  { unfold speaking, speakThaiWithHighlighting. simpl currentThai.
    apply truthy_true in Hne. rewrite Hne.
    destruct (streq thai (lit "Translation failed")) eqn:Hs;
      [apply streq_eq in Hs; contradiction | reflexivity]. }
  subst fin. rewrite E. clear E.
  destruct (playNextChunk_cases st0)
    as [[Hle E] | [(Hlt & _ & a & E) | (Hlt & Hbad & E)]];
    rewrite E; clear E; subst st0; simpl in *.
  - destruct cs; simpl in Hle; [|lia]. simpl.
    rewrite clear_all_spans. now repeat split.
  - destruct cs as [|c rest]; simpl in Hlt; [lia|].
    match goal with
    | |- context [run _ ?st] =>
        destruct (run_plays_rest rest [] c st a)
          as (Hlog & Hres & Hcyc & Hw); try assumption; try reflexivity
    end.
    + now inversion Hcs.
    + rewrite Hlog, Hres, Hcyc, Hw. now repeat split.
  - destruct cs as [|c rest]; simpl in Hlt; [lia|].
    inversion Hcs as [|? ? Hc _]. simpl in Hbad. congruence.
Qed.

Lemma sequencer_plays_all_chunks_witness :
  long_text <> [] /\ long_text <> lit "Translation failed"
  /\ isWellFormed long_text = true
  /\ List.length
       (log (run (flat_map (fun _ => plays_through)
                           (splitTextIntoChunks long_text 200))
                 (speaking long_text [true; false])))
     = 3.
Proof.
  assert (H1 : long_text <> []) by (vm_compute; discriminate).
  assert (H2 : long_text <> lit "Translation failed")
    by (vm_compute; discriminate).
  assert (H3 : isWellFormed long_text = true) by (vm_compute; reflexivity).
  split; [exact H1|]. split; [exact H2|]. split; [exact H3|].
  rewrite (proj1 (sequencer_plays_all_chunks long_text [true; false]
                    H1 H2 H3)).
  reflexivity.
Defined.

Lemma resolve_keeps (st : state) :
  thaiWords (resolve st) = thaiWords st
  /\ currentThai (resolve st) = currentThai st
  /\ currentAudioBlob (resolve st) = currentAudioBlob st
  /\ log (resolve st) = log st.
Proof. unfold resolve. simpl. destruct (cycle st); now repeat split. Qed.

Lemma reject_keeps (st : state) :
  thaiWords (reject st) = thaiWords st
  /\ currentThai (reject st) = currentThai st
  /\ currentAudioBlob (reject st) = currentAudioBlob st
  /\ log (reject st) = log st.
Proof. unfold reject. simpl. destruct (cycle st); now repeat split. Qed.

Lemma keeps_refl (n : nat) (st : state) : keeps n st st.
Proof. unfold keeps. repeat split. lia. Qed.

Lemma keeps_resolve (n : nat) (st st' : state) :
  keeps n st st' -> keeps n st (resolve st').
Proof.
  unfold keeps. now destruct (resolve_keeps st') as (-> & -> & -> & ->).
Qed.

Lemma keeps_reject (n : nat) (st st' : state) :
  keeps n st st' -> keeps n st (reject st').
Proof.
  unfold keeps. now destruct (reject_keeps st') as (-> & -> & -> & ->).
Qed.

Lemma keeps_playNextChunk (n : nat) (st st1 st' : state) :
  keeps n st st1 -> playNextChunk st1 = Some st' -> keeps n st st'.
Proof.
  intros H Hp.
  destruct (playNextChunk_cases st1)
    as [[_ E] | [(_ & _ & a & E) | (_ & _ & E)]];
    rewrite E in Hp; [| |discriminate]; injection Hp as <-.
  - apply keeps_resolve. unfold keeps in *. simpl. now rewrite forEach_length.
  - unfold keeps in *. simpl. now rewrite web_speeches_app, app_nil_r.
Qed.

Lemma handle_keeps (e : event) (st : state) :
  keeps (b2n (is_failure e)) st (handle e st).
Proof.
  destruct e; simpl.
  - destruct (cycle st); try apply keeps_refl.
    unfold keeps. simpl. rewrite web_speeches_app, app_nil_r.
    repeat split. lia.
  - destruct (cycle st); try apply keeps_refl.
    unfold keeps. simpl. rewrite web_speeches_app, app_nil_r.
    repeat split. lia.
  - destruct (cycle st); try apply keeps_refl.
    unfold speakThaiWithHighlighting.
    destruct (negb _ || _).
    + apply keeps_resolve. unfold keeps. simpl. repeat split. lia.
    + cbv zeta. set (st0 := set_chunkIndex 0 _).
      assert (H0 : keeps 0 st st0) by (unfold keeps; simpl; repeat split; lia).
      destruct (playNextChunk st0) as [st'|] eqn:Hp.
      * exact (keeps_playNextChunk _ _ _ _ H0 Hp).
      * now apply keeps_reject.
  - destruct (tts st) as [a|]; [|apply keeps_refl].
    unfold keeps. simpl. rewrite forEach_length. repeat split. lia.
  - destruct (tts st) as [a|]; [|apply keeps_refl].
    unfold onended. cbv zeta. set (st0 := set_chunkIndex _ _).
    assert (H0 : keeps 0 st st0) by (unfold keeps; simpl; repeat split; lia).
    destruct (playNextChunk st0) as [st'|] eqn:Hp; [|exact H0].
    exact (keeps_playNextChunk _ _ _ _ H0 Hp).
  - destruct (tts st) as [a|]; [|unfold keeps; repeat split; lia].
    unfold keeps. simpl. rewrite web_speeches_app, length_app. simpl.
    repeat split. lia.
  - destruct (tts st) as [a|]; [|unfold keeps; repeat split; lia].
    unfold keeps. simpl. rewrite web_speeches_app, length_app. simpl.
    repeat split. lia.
  - destruct (fallbacks st) as [|n]; [apply keeps_refl|].
    apply keeps_resolve. unfold keeps. simpl. repeat split. lia.
Qed.

(** No handler touches the recording or the text, or adds or removes a
    word span. *)
Lemma handle_frame (e : event) (st : state) :
  List.length (thaiWords (handle e st)) = List.length (thaiWords st)
  /\ currentThai (handle e st) = currentThai st
  /\ currentAudioBlob (handle e st) = currentAudioBlob st.
Proof. destruct (handle_keeps e st) as (H1 & H2 & H3 & _). now repeat split. Qed.

(** X4.  Whatever the host reports, a cycle never adds or removes a word
    span and never changes the translated text or the recording: all it
    does to the page is toggle highlighting. *)
Theorem cycle_only_toggles_highlighting (evs : list event) (st : state) :
  List.length (thaiWords (run evs st)) = List.length (thaiWords st)
  /\ currentThai (run evs st) = currentThai st
  /\ currentAudioBlob (run evs st) = currentAudioBlob st.
Proof.
  revert st. induction evs as [|e evs IH]; intros st; [now repeat split|].
  destruct (IH (handle e st)) as (H1 & H2 & H3).
  destruct (handle_frame e st) as (F1 & F2 & F3).
  change (run (e :: evs) st) with (run evs (handle e st)).
  rewrite H1, H2, H3. now repeat split.
Qed.

Lemma handle_web_speeches (e : event) (st : state) :
  List.length (web_speeches (log (handle e st)))
  <= List.length (web_speeches (log st)) + b2n (is_failure e).
Proof. apply handle_keeps. Qed.

(** X5.  The fallback speaker is called at most once per failure
    notification of a chunk audio; in particular it is never called in a
    run in which no chunk audio reports an error or a rejected [play()]. *)
Theorem fallbacks_bounded_by_failures (evs : list event) (st : state) :
  List.length (web_speeches (log (run evs st)))
  <= List.length (web_speeches (log st))
     + List.length (filter is_failure evs).
Proof.
  revert st. induction evs as [|e evs IH]; intros st; [simpl; lia|].
  change (run (e :: evs) st) with (run evs (handle e st)).
  specialize (IH (handle e st)). pose proof (handle_web_speeches e st).
  simpl filter. destruct (is_failure e); simpl in *; lia.
Qed.

(* ================================================================== *)
(** ** Word ranges and displayed words *)
(* ================================================================== *)

(** A whitespace unit separates tokens. *)
Lemma count_tokens_app_ws (a b : jsstring) (c : code_unit) :
  is_ws c = true ->
  count_tokens (a ++ c :: b) = count_tokens a + count_tokens b.
Proof.
  intros Hc. induction a as [|x a IH]; simpl.
  - now rewrite Hc.
  - destruct (is_ws x); [exact IH|].
    destruct a as [|y a]; simpl in *.
    + now rewrite Hc.
    + destruct (is_ws y); lia.
Qed.

Lemma count_tokens_join_sp (l : list jsstring) :
  count_tokens (join_sp l) = list_sum (map count_tokens l).
Proof.
  induction l as [|w l IH]; [reflexivity|].
  destruct l as [|v l]; [simpl; lia|].
  rewrite join_sp_cons by discriminate.
  rewrite count_tokens_app_ws by reflexivity. rewrite IH. reflexivity.
Qed.

Lemma count_tokens_proper (w : jsstring) :
  proper_word w -> count_tokens w = 1.
Proof.
  intros [Hne Hf]. induction Hf as [|c w Hc Hw IH]; [congruence|].
  simpl. rewrite Hc. destruct w as [|d w]; [reflexivity|].
  inversion Hw as [|? ? Hd _]; subst. rewrite Hd. apply IH. discriminate.
Qed.

Lemma count_tokens_proper_sum (l : list jsstring) :
  Forall proper_word l -> list_sum (map count_tokens l) = List.length l.
Proof.
  induction 1 as [|w l Hw Hl IH]; [reflexivity|].
  simpl. now rewrite (count_tokens_proper _ Hw), IH.
Qed.

Lemma split_ws_starts (s : jsstring) :
  starts_ws s = true -> exists ws, split_ws s = [] :: ws.
Proof.
  induction s as [|c s IH]; [discriminate|]. simpl. intros Hc. rewrite Hc.
  destruct (starts_ws s); [now apply IH | eexists; reflexivity].
Qed.

(** The non-empty pieces of a text are its tokens. *)
Lemma count_nonempty_pieces (s : jsstring) :
  List.length (filter truthy (split_ws s)) = count_tokens s.
Proof.
  induction s as [|c s IH]; [reflexivity|]. simpl.
  destruct (is_ws c) eqn:Hc.
  - destruct (starts_ws s); [exact IH | exact IH].
  - destruct s as [|d s]; [reflexivity|].
    destruct (is_ws d) eqn:Hd.
    + destruct (split_ws_starts (d :: s) Hd) as (ws & E).
      rewrite E in *. simpl in *. now rewrite IH.
    + simpl in IH. rewrite Hd in IH. simpl. rewrite Hd.
      destruct (split_ws s) as [|w ws]; simpl in *; exact IH.
Qed.

Lemma filter_truthy_pieces (pre mid post : list jsstring) :
  pre = [] \/ pre = [[]] -> post = [] \/ post = [[]] ->
  Forall proper_word mid ->
  filter truthy (pre ++ mid ++ post) = mid.
Proof.
  intros Hpre Hpost Hmid. rewrite !filter_app.
  assert (E : filter truthy mid = mid).
  { induction Hmid as [|w l [Hw _] Hl IH]; [reflexivity|].
    simpl. apply truthy_true in Hw. now rewrite Hw, IH. }
  rewrite E. destruct Hpre as [-> | ->], Hpost as [-> | ->]; simpl;
    now rewrite ?app_nil_r.
Qed.

(** The word counts of the chunks the loop pushes add up to the number of
    tokens of the text. *)
Lemma loop_word_counts (s : jsstring) (maxLength : Z) :
  list_sum (map tokenCount
              (chunk_finish
                 (fold_left (chunk_step maxLength) (split_ws s) ([], []))))
  = count_tokens s.
Proof.
  pose proof (loop_chunks_tidy s maxLength) as Htidy.
  destruct (split_ws_shape s) as (pre & mid & post & E & Hpre & Hpost & Hmid).
  rewrite <- count_nonempty_pieces, E, filter_truthy_pieces by assumption.
  rewrite <- (count_tokens_proper_sum mid Hmid), <- count_tokens_join_sp.
  rewrite <- (join_chunks_of_pieces maxLength pre mid post) by assumption.
  rewrite <- E, count_tokens_join_sp. f_equal.
  apply map_ext_in. intros c Hc. apply tokenCount_tidy.
  rewrite Forall_forall in Htidy. now apply Htidy.
Qed.

(** X6.  For a translation that is not empty and has no whitespace at its
    ends, the word counts the sequencer gives the chunks add up to the
    number of whitespace-delimited tokens of the whole text, whatever the
    chunk limit: the word ranges of the chunks cover the words of the text
    with none left over and none counted twice. *)
Theorem word_ranges_cover_text (thai : jsstring) (maxLength : Z) :
  thai <> [] -> no_edge_ws thai ->
  list_sum (map tokenCount (splitTextIntoChunks thai maxLength))
  = count_tokens thai.
Proof.
  intros Hne Hedge. unfold splitTextIntoChunks.
  destruct (len thai <=? maxLength)%Z.
  - simpl. rewrite tokenCount_tidy by now split. lia.
  - apply loop_word_counts.
Qed.

Lemma word_ranges_cover_text_witness :
  lit "aa bb cc dd" <> [] /\ no_edge_ws (lit "aa bb cc dd")
  /\ list_sum (map tokenCount (splitTextIntoChunks (lit "aa bb cc dd") 5))
     = 4.
Proof.
  assert (H1 : lit "aa bb cc dd" <> []) by discriminate.
  assert (H2 : no_edge_ws (lit "aa bb cc dd")) by (split; reflexivity).
  split; [exact H1|]. split; [exact H2|].
  exact (word_ranges_cover_text (lit "aa bb cc dd") 5 H1 H2).
Defined.

(** Consecutive ranges of the given sizes: a position below the total lies
    in exactly one of them. *)
Lemma prefix_sum_locate (ns : list nat) :
  forall k, k < list_sum ns ->
    exists i,
      i < List.length ns
      /\ list_sum (firstn i ns) <= k < list_sum (firstn i ns) + nth i ns 0
      /\ forall j, j < List.length ns ->
           list_sum (firstn j ns) <= k < list_sum (firstn j ns) + nth j ns 0 ->
           j = i.
Proof.
  induction ns as [|n ns IH]; intros k Hk; simpl in Hk; [lia|].
  destruct (Nat.lt_ge_cases k n) as [Hlt | Hge].
  - exists 0. simpl. repeat split; try lia.
    intros [|j] _; [reflexivity|]. simpl. lia.
  - destruct (IH (k - n)) as (i & Hi & Hr & Hu); [lia|].
    exists (S i). simpl. repeat split; try lia.
    intros [|j] Hj; simpl; [lia|]. intros Hrange.
    f_equal. apply Hu; lia.
Qed.

Lemma in_range_prefix_sum (cs : list jsstring) (i k : nat) :
  i < List.length cs ->
  (in_range cs i k
   <-> list_sum (firstn i (map tokenCount cs)) <= k
       < list_sum (firstn i (map tokenCount cs))
         + nth i (map tokenCount cs) 0).
Proof.
  intros Hi. unfold in_range.
  rewrite sum_words_before_spec by lia. rewrite firstn_map.
  rewrite (nth_indep (map tokenCount cs) 0 (tokenCount []))
    by now rewrite length_map.
  now rewrite map_nth.
Qed.

(** X7.  For a translation that is not empty and has no whitespace at its
    ends, every word position of the text lies in the word range of
    exactly one chunk: each displayed word is highlighted while one chunk
    plays and during no other. *)
Theorem each_word_in_one_chunk (thai : jsstring) (maxLength : Z) (k : nat) :
  thai <> [] -> no_edge_ws thai -> k < count_tokens thai ->
  let cs := splitTextIntoChunks thai maxLength in
  exists i,
    i < List.length cs
    /\ in_range cs i k
    /\ forall j, j < List.length cs -> in_range cs j k -> j = i.
Proof.
  intros Hne Hedge Hk cs.
  assert (Hsum : list_sum (map tokenCount cs) = count_tokens thai).
  { unfold cs, splitTextIntoChunks. destruct (len thai <=? maxLength)%Z.
    - simpl. rewrite tokenCount_tidy by now split. lia.
    - apply loop_word_counts. }
  destruct (prefix_sum_locate (map tokenCount cs) k) as (i & Hi & Hr & Hu);
    [lia|].
  rewrite length_map in Hi, Hu.
  exists i. split; [exact Hi|]. split.
  - now apply in_range_prefix_sum.
  - intros j Hj Hrange. apply Hu; [exact Hj|].
    now apply in_range_prefix_sum.
Qed.

Lemma each_word_in_one_chunk_witness :
  lit "aa bb cc dd" <> [] /\ no_edge_ws (lit "aa bb cc dd")
  /\ 2 < count_tokens (lit "aa bb cc dd")
  /\ exists i,
       i < List.length (splitTextIntoChunks (lit "aa bb cc dd") 5)
       /\ in_range (splitTextIntoChunks (lit "aa bb cc dd") 5) i 2
       /\ forall j,
            j < List.length (splitTextIntoChunks (lit "aa bb cc dd") 5) ->
            in_range (splitTextIntoChunks (lit "aa bb cc dd") 5) j 2 ->
            j = i.
Proof.
  assert (H1 : lit "aa bb cc dd" <> []) by discriminate.
  assert (H2 : no_edge_ws (lit "aa bb cc dd")) by (split; reflexivity).
  assert (H3 : 2 < count_tokens (lit "aa bb cc dd")) by (simpl; lia).
  split; [exact H1|]. split; [exact H2|]. split; [exact H3|].
  exact (each_word_in_one_chunk (lit "aa bb cc dd") 5 2 H1 H2 H3).
Defined.

(* ================================================================== *)
(** ** The displayed translation *)
(* ================================================================== *)

Lemma drop_ws_all_ws (s : jsstring) : all_ws s -> drop_ws s = [].
Proof. induction 1 as [|c s Hc Hs IH]; simpl; [|rewrite Hc]; auto. Qed.

Lemma trim_all_ws (s : jsstring) : all_ws s -> trim s = [].
Proof.
  intros H. unfold trim, trimStart, trimEnd. now rewrite (drop_ws_all_ws _ H).
Qed.

(** A text that starts with whitespace splits into an empty piece, the
    leading whitespace run, and the rest. *)
Lemma capture_starts (s : jsstring) :
  starts_ws s = true ->
  exists run rest,
    split_ws_capture s = [] :: run :: rest /\ all_ws run.
Proof.
  induction s as [|c s IH]; [discriminate|]. simpl. intros Hc. rewrite Hc.
  destruct (starts_ws s).
  - destruct (IH eq_refl) as (run & rest & -> & Hrun).
    exists (c :: run), rest. split; [reflexivity | now constructor].
  - exists [c], (split_ws_capture s). split; [reflexivity|].
    now repeat constructor.
Qed.

(** Both ways of splitting begin with the same piece. *)
Lemma capture_head (s : jsstring) :
  exists p rest ws,
    split_ws_capture s = p :: rest /\ split_ws s = p :: ws.
Proof.
  induction s as [|c s (p & rest & ws & E1 & E2)].
  - exists [], [], []. now split.
  - simpl. destruct (is_ws c) eqn:Hc.
    + destruct (starts_ws s) eqn:Hs.
      * destruct (capture_starts s Hs) as (run & rest' & E & _).
        destruct (split_ws_starts s Hs) as (ws' & E').
        rewrite E, E'. now exists [], ((c :: run) :: rest'), ws'.
      * now exists [], ([c] :: split_ws_capture s), (split_ws s).
    + rewrite E1, E2. now exists (c :: p), rest, ws.
Qed.

Lemma concat_capture (s : jsstring) : List.concat (split_ws_capture s) = s.
Proof.
  induction s as [|c s IH]; [reflexivity|]. simpl.
  destruct (is_ws c).
  - destruct (starts_ws s) eqn:Hs.
    + destruct (capture_starts s Hs) as (run & rest & E & _).
      rewrite E in *. simpl in *. now rewrite IH.
    + simpl. now rewrite IH.
  - destruct (split_ws_capture s) as [|p rest]; simpl in *; now rewrite <- IH.
Qed.

Lemma node_text_map_from (l : list jsstring) :
  forall i, map node_text (map_from thai_node i l) = l.
Proof.
  induction l as [|w l IH]; intros i; [reflexivity|].
  simpl. rewrite IH. unfold thai_node. now destruct (truthy (trim w)).
Qed.

(** The wrapped elements of the split text are those of its pieces:
    whitespace runs are not wrapped, and each piece sits two places after
    the one before. *)
Lemma spans_capture (s : jsstring) :
  forall i,
    wrapped (map_from thai_node i (split_ws_capture s))
    = spans_from i (split_ws s).
Proof.
  induction s as [|c s IH]; intros i; [reflexivity|]. simpl.
  destruct (is_ws c) eqn:Hc.
  - destruct (starts_ws s) eqn:Hs.
    + destruct (capture_starts s Hs) as (run & rest & E & Hrun).
      specialize (IH i). rewrite E in *. simpl in *.
      unfold thai_node in *.
      rewrite (trim_all_ws run Hrun) in IH.
      rewrite (trim_all_ws (c :: run)) by now constructor.
      exact IH.
    + simpl. unfold thai_node at 1 2.
      rewrite (trim_all_ws [c]) by now repeat constructor.
      simpl. apply IH.
  - destruct (capture_head s) as (p & rest & ws & E1 & E2).
    specialize (IH i). rewrite E1, E2 in *. simpl in *.
    assert (Hp : ws_free p).
    { pose proof (split_ws_ws_free s) as H. rewrite E2 in H.
      now inversion H. }
    unfold thai_node in *.
    rewrite (trim_ws_free p Hp) in IH.
    rewrite (trim_ws_free (c :: p)) by now constructor.
    simpl. destruct (truthy p); simpl in IH.
    + injection IH as IH. now rewrite IH.
    + now rewrite IH.
Qed.

(** X8.  The elements [displayThai] writes, wrapped or not, read in order
    make up the translation itself, whitespace included. *)
Theorem displayThai_shows_translation (thai : jsstring) :
  List.concat (map node_text (thai_nodes thai)) = thai.
Proof.
  unfold thai_nodes, map_index. rewrite node_text_map_from.
  apply concat_capture.
Qed.

Lemma spans_from_texts (pieces : list jsstring) :
  forall i, map snd (spans_from i pieces) = filter truthy pieces.
Proof.
  induction pieces as [|p ps IH]; intros i; [reflexivity|].
  simpl. rewrite map_app, IH. now destruct (truthy p).
Qed.

(** X9.  The elements of the split translation that [displayThai] wraps in
    word-span markup are the whitespace-delimited tokens of the
    translation, each once and in order; whitespace runs and empty pieces
    are written without markup.  So the string assigned to [innerHTML]
    holds as many word-span wrappers as the translation has tokens. *)
Theorem wrapped_elements_are_tokens (thai : jsstring) :
  map snd (wrapped (thai_nodes thai)) = filter truthy (split_ws thai)
  /\ List.length (wrapped (thai_nodes thai)) = count_tokens thai.
Proof.
  unfold thai_nodes, map_index. rewrite spans_capture.
  assert (H : map snd (spans_from 0 (split_ws thai))
              = filter truthy (split_ws thai)) by apply spans_from_texts.
  split; [exact H|].
  rewrite <- count_nonempty_pieces, <- H. now rewrite length_map.
Qed.

Lemma spans_from_proper (mid : list jsstring) :
  Forall proper_word mid ->
  forall i,
    map fst (spans_from i mid)
    = map (fun k => i + 2 * k) (seq 0 (List.length mid)).
Proof.
  induction 1 as [|w mid [Hw _] Hmid IH]; intros i; [reflexivity|].
  simpl. apply truthy_true in Hw. rewrite Hw. simpl.
  rewrite IH, <- seq_shift, map_map. f_equal; [lia|].
  apply map_ext. intros k. lia.
Qed.

Lemma spans_from_snoc_nil (pieces : list jsstring) :
  forall i, spans_from i (pieces ++ [[]]) = spans_from i pieces.
Proof.
  induction pieces as [|p ps IH]; intros i; [reflexivity|].
  simpl. now rewrite IH.
Qed.

(** X10.  For a translation that does not start with whitespace, the k-th
    word-span wrapper that [displayThai] writes carries [data-index] 2k:
    the attribute counts the elements of the split text, whitespace runs
    included, and so is not the wrapper's position among the wrappers. *)
Theorem wrapper_data_index_is_even (thai : jsstring) :
  starts_ws thai = false ->
  map fst (wrapped (thai_nodes thai))
  = map (fun k => 2 * k) (seq 0 (count_tokens thai)).
Proof.
  intros Hs. unfold thai_nodes, map_index. rewrite spans_capture.
  rewrite <- count_nonempty_pieces.
  destruct (split_ws_shape thai)
    as (pre & mid & post & E & Hpre & Hpost & Hmid).
  rewrite E, filter_truthy_pieces by assumption.
  assert (Hpost' : forall i, spans_from i (mid ++ post) = spans_from i mid).
  { intros i. destruct Hpost as [-> | ->];
      [now rewrite app_nil_r | apply spans_from_snoc_nil]. }
  destruct Hpre as [-> | ->].
  - simpl app. rewrite Hpost'. now rewrite spans_from_proper.
  - (* an empty first piece without leading whitespace: the text is empty *)
    destruct (split_ws_head_nil thai _ E) as [-> | Hs']; [|congruence].
    simpl in E. destruct mid as [|w mid]; [|discriminate].
    destruct Hpost as [-> | ->]; reflexivity.
Qed.

Lemma wrapper_data_index_is_even_witness :
  starts_ws (lit "a bb  c") = false
  /\ map fst (wrapped (thai_nodes (lit "a bb  c"))) = [0; 2; 4].
Proof.
  assert (H : starts_ws (lit "a bb  c") = false) by reflexivity.
  split; [exact H|].
  exact (wrapper_data_index_is_even (lit "a bb  c") H).
Defined.

Example split_ws_capture_edges :
  split_ws_capture (lit " a  b ")
  = [[]; lit " "; lit "a"; lit "  "; lit "b"; lit " "; []]
  /\ split_ws_capture (lit "") = [[]]
  /\ thai_nodes (lit "a  b")
     = [WordSpan 0 (lit "a"); PlainText (lit "  "); WordSpan 2 (lit "b")]
  /\ thai_innerHTML (lit "") = [].
Proof. repeat split. Qed.

(** The elements are written as they are: a translation with markup of its
    own puts that markup into the assigned string. *)
Example markup_is_not_escaped :
  thai_innerHTML (lit "x<b y")
  = lit "<span class=" ++ [QUOTE] ++ lit "thai-word" ++ [QUOTE]
    ++ lit " data-index=" ++ [QUOTE] ++ lit "0" ++ [QUOTE]
    ++ lit ">x<b</span> <span class=" ++ [QUOTE] ++ lit "thai-word" ++ [QUOTE]
    ++ lit " data-index=" ++ [QUOTE] ++ lit "2" ++ [QUOTE]
    ++ lit ">y</span>".
Proof. reflexivity. Qed.

(* ================================================================== *)
(** ** The controller: what every run keeps *)
(* ================================================================== *)

Lemma recorder_after_snoc (l : list Learner.effect) (e : Learner.effect) :
  Learner.recorder_after (l ++ [e])
  = Learner.recorder_step (Learner.recorder_after l) e.
Proof. unfold Learner.recorder_after. now rewrite fold_left_app. Qed.

Lemma no_edge_translation (response : option jsstring) :
  no_edge_ws (match response with
              | Some r => trim r
              | None => lit "Translation failed"
              end).
Proof.
  destruct response; [apply trim_no_edge | split; reflexivity].
Qed.

Ltac learner_done Hrec :=
  unfold no_edge_ws in *;
  repeat split; intros;
  repeat match goal with
         | H : _ \/ _ |- _ => destruct H
         | H : _ /\ _ |- _ => destruct H
         end;
  subst; try congruence; try discriminate; try tauto; auto;
  try (repeat rewrite recorder_after_snoc; rewrite Hrec; reflexivity);
  try (repeat (apply Forall_app; split); try assumption;
       repeat constructor; auto).

(** Every turn of the event loop keeps the controller's invariant. *)
Lemma learner_inv_handle (e : Learner.event) (s : Learner.learner) :
  Learner.inv s -> Learner.inv (Learner.handle e s).
Proof.
  destruct s as [rec proc blob0 eng thai etext thtml st wk tm lg].
  unfold Learner.inv. simpl. intros Hinv.
  pose proof Hinv as (Hex & Hproc & Htexts & Hblob & Hedge & Hlog & Hrec).
  assert (Hwork : wk <> Learner.Idle -> proc = true /\ rec = false).
  { intros H. apply Hproc in H. subst proc. split; [reflexivity|].
    now rewrite andb_true_r in Hex. }
  destruct e as [k | k | b | text | | response | | |].
  - (* key down *)
    destruct k; simpl; try exact Hinv.
    + destruct proc eqn:Hp; simpl; [exact Hinv|].
      unfold Learner.startRecording. simpl. rewrite orb_false_r.
      destruct rec eqn:Hr; simpl; [exact Hinv|].
      assert (wk = Learner.Idle)
        by (destruct wk; auto; destruct Hwork; discriminate).
      subst wk. clear Hinv. learner_done Hrec.
    + destruct (truthy eng && truthy thai && negb proc) eqn:Hc;
        simpl; [|exact Hinv].
      apply andb_true_iff in Hc as [Hc _].
      apply andb_true_iff in Hc as [He _]. apply truthy_true in He.
      assert (blob0 <> None) by (apply Hblob; auto).
      clear Hinv. learner_done Hrec.
    + destruct (truthy eng && truthy thai && negb proc) eqn:Hc;
        simpl; [|exact Hinv].
      apply andb_true_iff in Hc as [Hc _].
      apply andb_true_iff in Hc as [He _]. apply truthy_true in He.
      assert (blob0 <> None) by (apply Hblob; auto).
      clear Hinv. learner_done Hrec.
  - (* key up *)
    destruct k; simpl; try exact Hinv.
    destruct rec eqn:Hr; simpl; [|exact Hinv].
    destruct (Htexts (or_introl eq_refl)) as [-> ->].
    clear Hinv. learner_done Hrec.
  - (* the recorder has stopped *)
    destruct wk; simpl; try exact Hinv.
    destruct (Hwork ltac:(discriminate)) as [-> ->].
    destruct (Htexts (or_intror (or_introl eq_refl))) as [-> ->].
    clear Hinv. learner_done Hrec.
  - (* the model has answered *)
    destruct wk; simpl; try exact Hinv.
    destruct (Hwork ltac:(discriminate)) as [-> ->].
    destruct (Htexts (or_intror (or_intror eq_refl))) as [-> ->].
    assert (blob0 <> None) by (apply Hblob; auto).
    unfold Learner.transcribed. simpl.
    destruct (truthy (trim text)) eqn:Ht; simpl.
    + clear Hinv. learner_done Hrec.
    + apply truthy_false in Ht. rewrite Ht.
      clear Hinv. learner_done Hrec.
  - (* the model has failed *)
    destruct wk; simpl; try exact Hinv.
    destruct (Hwork ltac:(discriminate)) as [-> ->].
    destruct (Htexts (or_intror (or_intror eq_refl))) as [-> ->].
    clear Hinv. learner_done Hrec.
  - (* the translation has arrived *)
    destruct wk; simpl; try exact Hinv.
    destruct (Hwork ltac:(discriminate)) as [-> ->].
    assert (blob0 <> None) by (apply Hblob; auto).
    pose proof (trim_no_edge response).
    clear Hinv. learner_done Hrec.
  - (* the translation has failed *)
    destruct wk; simpl; try exact Hinv.
    destruct (Hwork ltac:(discriminate)) as [-> ->].
    assert (blob0 <> None) by (apply Hblob; auto).
    assert (no_edge_ws (lit "Translation failed")) by (split; reflexivity).
    clear Hinv. learner_done Hrec.
  - (* the playback cycle is over *)
    destruct wk; simpl; try exact Hinv.
    destruct (Hwork ltac:(discriminate)) as [-> ->].
    assert (blob0 <> None) by (apply Hblob; auto).
    clear Hinv. learner_done Hrec.
  - (* a timer of showError *)
    destruct tm; simpl; exact Hinv.
Qed.

Lemma learner_run_app (evs evs' : list Learner.event) (s : Learner.learner) :
  Learner.run (evs ++ evs') s = Learner.run evs' (Learner.run evs s).
Proof. apply fold_left_app. Qed.

Lemma learner_inv_run (evs : list Learner.event) :
  forall s, Learner.inv s -> Learner.inv (Learner.run evs s).
Proof.
  induction evs as [|e evs IH]; intros s H; [exact H|].
  apply IH. now apply learner_inv_handle.
Qed.

Lemma learner_inv_started (english thai : jsstring) :
  Learner.inv (Learner.started english thai).
Proof.
  assert (Hrec : Learner.recorder_after [] = Some false) by reflexivity.
  unfold Learner.inv. simpl. learner_done Hrec.
Qed.

(** X11.  Whatever keys are pressed and whatever the host reports, the media
    recorder is started only while it is not recording and stopped only
    while it is recording, and [isRecording] says at every moment whether
    it records. *)
Theorem recorder_used_in_turn (english thai : jsstring)
  (evs : list Learner.event) :
  Learner.recorder_after
    (Learner.log (Learner.run evs (Learner.started english thai)))
  = Some (Learner.isRecording
            (Learner.run evs (Learner.started english thai))).
Proof.
  apply (learner_inv_run evs _ (learner_inv_started english thai)).
Qed.

(** X12.  The controller is never recording and processing at once, and from
    the key release that stops a recording until [processAudio] has
    returned the processing flag is set and nothing is being recorded. *)
Theorem never_recording_while_processing (english thai : jsstring)
  (evs : list Learner.event) :
  let s := Learner.run evs (Learner.started english thai) in
  Learner.isRecording s && Learner.isProcessing s = false
  /\ (Learner.work s <> Learner.Idle ->
      Learner.isProcessing s = true /\ Learner.isRecording s = false).
Proof.
  intros s.
  pose proof (learner_inv_run evs _ (learner_inv_started english thai))
    as (Hex & Hproc & _).
  fold s in Hex, Hproc. split; [exact Hex|]. intros H.
  apply Hproc in H. split; [exact H|].
  rewrite H in Hex. now rewrite andb_true_r in Hex.
Qed.

(** X13.  Every playback cycle the controller starts, after processing or on
    a Shift key, finds a recording to play, and a translation without
    whitespace at its ends; so the translation is empty or the sequencer
    cuts it into chunks that are non-empty and trimmed. *)
Theorem playback_calls_are_sound (english thai0 : jsstring)
  (evs : list Learner.event) (recording : option blob) (thai : jsstring) :
  In (Learner.StartPlayback recording thai)
     (Learner.log (Learner.run evs (Learner.started english thai0))) ->
  recording <> None
  /\ no_edge_ws thai
  /\ (thai = [] \/ Forall tidy_chunk (splitTextIntoChunks thai 200)).
Proof.
  intros Hin.
  pose proof (learner_inv_run evs _ (learner_inv_started english thai0))
    as (_ & _ & _ & _ & _ & Hlog & _).
  rewrite Forall_forall in Hlog. destruct (Hlog _ Hin) as [Hrec Hedge].
  split; [exact Hrec|]. split; [exact Hedge|].
  destruct thai as [|c thai]; [now left|]. right.
  apply sequencer_chunks_tidy; [discriminate | exact Hedge].
Qed.

Lemma playback_calls_are_sound_witness :
  In (Learner.StartPlayback (Some 3) (lit "b c"))
     (Learner.log
        (Learner.run [Learner.KeyDown Learner.Space;
                      Learner.KeyUp Learner.Space;
                      Learner.RecorderStopped 3;
                      Learner.Transcribed (lit " a ");
                      Learner.Translated (lit " b c ")]
                     (Learner.started [] [])))
  /\ Forall tidy_chunk (splitTextIntoChunks (lit "b c") 200).
Proof.
  assert (H : In (Learner.StartPlayback (Some 3) (lit "b c"))
                 (Learner.log
                    (Learner.run [Learner.KeyDown Learner.Space;
                                  Learner.KeyUp Learner.Space;
                                  Learner.RecorderStopped 3;
                                  Learner.Transcribed (lit " a ");
                                  Learner.Translated (lit " b c ")]
                                 (Learner.started [] []))))
    by (vm_compute; auto 10).
  split; [exact H|].
  destruct (playback_calls_are_sound [] [] _ _ _ H) as (_ & _ & [E | Ht]);
    [discriminate E | exact Ht].
Defined.

(** X14.  While a recording is being made or an utterance is being
    processed, a Shift key does nothing: it starts no playback and
    changes no field. *)
Theorem shift_ignored_while_busy (english thai : jsstring)
  (evs : list Learner.event) (k : Learner.key) :
  let s := Learner.run evs (Learner.started english thai) in
  Learner.isRecording s = true \/ Learner.isProcessing s = true ->
  k = Learner.ShiftLeft \/ k = Learner.ShiftRight ->
  Learner.handle (Learner.KeyDown k) s = s.
Proof.
  intros s Hbusy Hk.
  pose proof (learner_inv_run evs _ (learner_inv_started english thai))
    as (_ & _ & Htexts & _).
  fold s in Htexts.
  assert (E : truthy (Learner.currentEnglish s)
              && truthy (Learner.currentThai s)
              && negb (Learner.isProcessing s) = false).
  { destruct Hbusy as [Hr | Hp].
    - destruct (Htexts (or_introl Hr)) as [-> _]. reflexivity.
    - rewrite Hp. apply andb_false_r. }
  destruct Hk as [-> | ->]; simpl; now rewrite E.
Qed.

Lemma shift_ignored_while_busy_witness :
  Learner.isRecording
    (Learner.run [Learner.KeyDown Learner.Space] (Learner.started [] []))
  = true
  /\ Learner.handle (Learner.KeyDown Learner.ShiftLeft)
       (Learner.run [Learner.KeyDown Learner.Space] (Learner.started [] []))
     = Learner.run [Learner.KeyDown Learner.Space] (Learner.started [] []).
Proof.
  split; [reflexivity|].
  exact (shift_ignored_while_busy [] [] [Learner.KeyDown Learner.Space]
           Learner.ShiftLeft (or_introl eq_refl) (or_introl eq_refl)).
Defined.

(** Every turn of the event loop keeps the page in step with the
    fields. *)
Lemma learner_sync_handle (e : Learner.event) (s : Learner.learner) :
  Learner.inv s -> Learner.in_sync s ->
  Learner.in_sync (Learner.handle e s).
Proof.
  destruct s as [rec proc blob0 eng thai etext thtml st wk tm lg].
  unfold Learner.inv, Learner.in_sync. simpl.
  intros (_ & _ & Htexts & _) Hsync.
  destruct e as [k | k | b | text | | response | | |]; simpl.
  - destruct k; simpl; try exact Hsync.
    + destruct (negb proc); [|exact Hsync].
      unfold Learner.startRecording. simpl.
      destruct (rec || proc); [exact Hsync | now split].
    + destruct (truthy eng && truthy thai && negb proc); exact Hsync.
    + destruct (truthy eng && truthy thai && negb proc); exact Hsync.
  - destruct k; simpl; try exact Hsync.
    unfold Learner.stopRecording. simpl. destruct rec; exact Hsync.
  - destruct wk; exact Hsync.
  - destruct wk; try exact Hsync.
    destruct (Htexts (or_intror (or_intror eq_refl))) as [-> ->].
    unfold Learner.transcribed. simpl.
    destruct (truthy (trim text)) eqn:Ht; simpl.
    + split; [reflexivity | apply Hsync].
    + apply truthy_false in Ht. rewrite Ht. exact Hsync.
  - destruct wk; exact Hsync.
  - destruct wk; try exact Hsync. simpl. split; [apply Hsync | reflexivity].
  - destruct wk; try exact Hsync. simpl. split; [apply Hsync | reflexivity].
  - destruct wk; exact Hsync.
  - destruct tm; exact Hsync.
Qed.

(** X15.  On a page whose text elements start empty, every handler that
    changes a text field writes it to the page before it returns: after
    every turn of the event loop the English element holds
    [currentEnglish], and the string last assigned to the [innerHTML] of
    the Thai element is the markup [displayThai] builds from
    [currentThai], whatever keys are pressed and whatever the host
    reports. *)
Theorem page_written_from_fields (evs : list Learner.event) :
  Learner.in_sync (Learner.run evs (Learner.started [] [])).
Proof.
  assert (H : forall s, Learner.inv s -> Learner.in_sync s ->
                        Learner.in_sync (Learner.run evs s)).
  { induction evs as [|e evs IH]; intros s Hinv Hsync; [exact Hsync|].
    apply IH; [now apply learner_inv_handle | now apply learner_sync_handle]. }
  apply H; [apply learner_inv_started | now split].
Qed.

(** X16.  When the transcription fails, or gives only whitespace, processing
    ends at once: nothing is translated or played, the processing flag is
    cleared, and the status is back to ready before the handler returns,
    the error status having been replaced in the same turn; what is left
    of the error is its three-second timer. *)
Theorem failed_processing_ends_ready (s : Learner.learner)
  (e : Learner.event) :
  Learner.work s = Learner.Transcribing ->
  e = Learner.TranscribeFailed
  \/ (exists text, e = Learner.Transcribed text /\ trim text = []) ->
  let s' := Learner.handle e s in
  Learner.status s' = Learner.StReady
  /\ Learner.isProcessing s' = false
  /\ Learner.work s' = Learner.Idle
  /\ Learner.log s' = Learner.log s ++ [Learner.ErrorTimer]
  /\ Learner.timers s' = S (Learner.timers s)
  /\ Learner.currentThai s' = Learner.currentThai s.
Proof.
  intros Hw [-> | (text & -> & Ht)] s'; subst s'; simpl; rewrite Hw.
  - now repeat split.
  - unfold Learner.transcribed. simpl. rewrite Ht. now repeat split.
Qed.

Lemma failed_processing_ends_ready_witness :
  Learner.work transcribing_state = Learner.Transcribing
  /\ Learner.status
       (Learner.handle (Learner.Transcribed (lit "  ")) transcribing_state)
     = Learner.StReady.
Proof.
  split; [reflexivity|].
  exact (proj1 (failed_processing_ends_ready
                  transcribing_state
                  (Learner.Transcribed (lit "  ")) eq_refl
                  (or_intror (ex_intro _ (lit "  ") (conj eq_refl eq_refl))))).
Defined.

(** While [processAudio] awaits the playback cycle, no event but the end
    of the cycle changes the stage, the flags, the fields or the log. *)
Lemma pending_playback_handle (e : Learner.event) (s : Learner.learner) :
  Learner.work s = Learner.Playing ->
  Learner.isProcessing s = true -> Learner.isRecording s = false ->
  e <> Learner.PlaybackDone ->
  Learner.work (Learner.handle e s) = Learner.Playing
  /\ Learner.isProcessing (Learner.handle e s) = true
  /\ Learner.isRecording (Learner.handle e s) = false
  /\ Learner.log (Learner.handle e s) = Learner.log s.
Proof.
  intros Hw Hp Hr He.
  destruct e as [k | k | b | text | | response | | |]; simpl;
    rewrite ?Hw, ?Hp, ?Hr; try (now repeat split); try congruence.
  - destruct k; simpl; rewrite ?andb_false_r; now repeat split.
  - destruct k; simpl; now repeat split.
  - destruct (Learner.timers s); now repeat split.
Qed.

(** X17.  While the playback cycle that [processAudio] awaits has not ended,
    the controller stays busy: whatever keys are pressed, no recording is
    started and no playback is started, and the processing flag stays
    set.  A cycle that never ends leaves the controller in this state for
    good. *)
Theorem busy_until_playback_ends (evs : list Learner.event)
  (s : Learner.learner) :
  Learner.work s = Learner.Playing ->
  Learner.isProcessing s = true -> Learner.isRecording s = false ->
  ~ In Learner.PlaybackDone evs ->
  Learner.work (Learner.run evs s) = Learner.Playing
  /\ Learner.isProcessing (Learner.run evs s) = true
  /\ Learner.log (Learner.run evs s) = Learner.log s.
Proof.
  revert s. induction evs as [|e evs IH]; intros s Hw Hp Hr Hnot;
    [now repeat split|].
  destruct (pending_playback_handle e s Hw Hp Hr) as (Hw' & Hp' & Hr' & Hl').
  { intros ->. apply Hnot. now left. }
  destruct (IH (Learner.handle e s) Hw' Hp' Hr') as (H1 & H2 & H3).
  { intros H. apply Hnot. now right. }
  change (Learner.run (e :: evs) s) with (Learner.run evs (Learner.handle e s)).
  rewrite H1, H2, H3. now repeat split.
Qed.

Lemma busy_until_playback_ends_witness :
  Learner.work playing_state = Learner.Playing
  /\ Learner.log
       (Learner.run [Learner.KeyDown Learner.Space;
                     Learner.KeyDown Learner.ShiftLeft] playing_state)
     = Learner.log playing_state.
Proof.
  split; [reflexivity|].
  refine (proj2 (proj2 (busy_until_playback_ends
                          [Learner.KeyDown Learner.Space;
                           Learner.KeyDown Learner.ShiftLeft]
                          playing_state eq_refl eq_refl eq_refl _))).
  simpl. intros [H | [H | []]]; discriminate.
Defined.

(** X18.  One whole utterance.  Space is pressed and released, the recorder
    stops with recording [b], the model answers [text], the translation
    service answers [response], and the playback cycle ends.  The
    controller has then asked, in this order, to start the recorder, to
    cancel speech, to stop the recorder, to translate the trimmed text
    and to play back [b] with the trimmed translation; it is idle and
    ready again, and a Shift key replays the same recording and
    translation when the translation is not empty. *)
Theorem utterance_round (b : blob) (text response : jsstring) :
  trim text <> [] ->
  let s := Learner.run [Learner.KeyDown Learner.Space;
                        Learner.KeyUp Learner.Space;
                        Learner.RecorderStopped b;
                        Learner.Transcribed text;
                        Learner.Translated response;
                        Learner.PlaybackDone]
                       (Learner.started [] []) in
  Learner.log s
  = [Learner.RecorderStart; Learner.SpeechCancel; Learner.RecorderStop;
     Learner.TranslateRequest (trim text);
     Learner.StartPlayback (Some b) (trim response)]
  /\ Learner.isRecording s = false
  /\ Learner.isProcessing s = false
  /\ Learner.status s = Learner.StReady
  /\ Learner.currentEnglish s = trim text
  /\ Learner.currentThai s = trim response
  /\ (trim response <> [] ->
      Learner.log (Learner.handle (Learner.KeyDown Learner.ShiftLeft) s)
      = Learner.log s ++ [Learner.StartPlayback (Some b) (trim response)]).
Proof.
  intros Ht s. apply truthy_true in Ht.
  set (lg3 := [Learner.RecorderStart; Learner.SpeechCancel;
               Learner.RecorderStop]).
  set (lg4 := lg3 ++ [Learner.TranslateRequest (trim text)]).
  set (lg5 := lg4 ++ [Learner.StartPlayback (Some b) (trim response)]).
  assert (E3 : Learner.run [Learner.KeyDown Learner.Space;
                            Learner.KeyUp Learner.Space;
                            Learner.RecorderStopped b]
                           (Learner.started [] [])
               = Learner.mkLearner false true (Some b) [] [] [] []
                   Learner.StProcessing Learner.Transcribing 0 lg3)
    by (vm_compute; reflexivity).
  assert (E4 : Learner.handle (Learner.Transcribed text)
                 (Learner.mkLearner false true (Some b) [] [] [] []
                    Learner.StProcessing Learner.Transcribing 0 lg3)
               = Learner.mkLearner false true (Some b) (trim text) []
                   (trim text) [] Learner.StProcessing Learner.Translating
                   0 lg4).
  { unfold Learner.handle, Learner.transcribed. cbn [Learner.work].
    cbn [Learner.currentEnglish Learner.set_currentEnglish].
    rewrite Ht. reflexivity. }
  assert (E5 : Learner.handle (Learner.Translated response)
                 (Learner.mkLearner false true (Some b) (trim text) []
                    (trim text) [] Learner.StProcessing Learner.Translating
                    0 lg4)
               = Learner.mkLearner false true (Some b) (trim text)
                   (trim response) (trim text)
                   (thai_innerHTML (trim response))
                   Learner.StProcessing Learner.Playing 0 lg5)
    by reflexivity.
  assert (E6 : Learner.handle Learner.PlaybackDone
                 (Learner.mkLearner false true (Some b) (trim text)
                    (trim response) (trim text)
                    (thai_innerHTML (trim response))
                    Learner.StProcessing Learner.Playing 0 lg5)
               = Learner.mkLearner false false (Some b) (trim text)
                   (trim response) (trim text)
                   (thai_innerHTML (trim response))
                   Learner.StReady Learner.Idle 0 lg5)
    by reflexivity.
  assert (E : s = Learner.mkLearner false false (Some b) (trim text)
                    (trim response) (trim text)
                    (thai_innerHTML (trim response))
                    Learner.StReady Learner.Idle 0 lg5).
  { subst s.
    change [Learner.KeyDown Learner.Space; Learner.KeyUp Learner.Space;
            Learner.RecorderStopped b; Learner.Transcribed text;
            Learner.Translated response; Learner.PlaybackDone]
      with ([Learner.KeyDown Learner.Space; Learner.KeyUp Learner.Space;
             Learner.RecorderStopped b]
            ++ [Learner.Transcribed text; Learner.Translated response;
                Learner.PlaybackDone]).
    rewrite learner_run_app, E3. unfold Learner.run. cbn [fold_left].
    now rewrite E4, E5, E6. }
  rewrite E. cbn [Learner.log Learner.isRecording Learner.isProcessing
                  Learner.status Learner.currentEnglish Learner.currentThai].
  repeat split.
  intros Hr. apply truthy_true in Hr.
  unfold Learner.handle, Learner.playbackCycle.
  cbn [Learner.currentEnglish Learner.currentThai Learner.isProcessing
       Learner.currentAudioBlob Learner.log Learner.emit].
  rewrite Ht, Hr. reflexivity.
Qed.

Lemma utterance_round_witness :
  trim (lit " a ") <> []
  /\ Learner.isProcessing
       (Learner.run [Learner.KeyDown Learner.Space;
                     Learner.KeyUp Learner.Space;
                     Learner.RecorderStopped 5;
                     Learner.Transcribed (lit " a ");
                     Learner.Translated (lit " b ");
                     Learner.PlaybackDone]
                    (Learner.started [] []))
     = false.
Proof.
  assert (H : trim (lit " a ") <> []) by (vm_compute; discriminate).
  split; [exact H|].
  destruct (utterance_round 5 (lit " a ") (lit " b ") H)
    as (_ & _ & E & _).
  exact E.
Defined.

(* ================================================================== *)
(** ** The fallback speaker's voice *)
(* ================================================================== *)

Lemma starts_with_spec (s p : jsstring) :
  starts_with s p = true <-> exists b, s = p ++ b.
Proof.
  revert s. induction p as [|x p IH]; intros s; simpl.
  - split; [intros _; now exists s | intros _; now destruct s].
  - destruct s as [|y s]; simpl.
    + split; [discriminate | intros (b & H); discriminate].
    + rewrite andb_true_iff, N.eqb_eq, IH. split.
      * intros (-> & b & ->). now exists b.
      * intros (b & H). injection H as -> ->. split; [reflexivity|].
        now exists b.
Qed.

Lemma includes_spec (s p : jsstring) :
  includes s p = true <-> exists a b, s = a ++ p ++ b.
Proof.
  induction s as [|y s IH]; cbn [includes];
    rewrite orb_true_iff, starts_with_spec.
  - split.
    + intros [(b & H) | H]; [now exists [], b | discriminate].
    + intros (a & b & H). left. destruct a; [now exists b | discriminate].
  - rewrite IH. split.
    + intros [(b & H) | (a & b & ->)]; [now exists [], b|].
      now exists (y :: a), b.
    + intros (a & b & H). destruct a as [|x a].
      * left. now exists b.
      * right. injection H as -> ->. now exists a, b.
Qed.

(** X19.  The fallback utterance carries the text it was given, and its
    voice is the first voice of the host, in the host's order, whose
    language tag contains the letters [th] anywhere; when no tag contains
    them the utterance keeps the default voice. *)
Theorem fallback_voice_is_first_match (voices : list voice)
  (text : jsstring) :
  utterance_text (fallbackToWebSpeech voices text) = text
  /\ match utterance_voice (fallbackToWebSpeech voices text) with
     | Some v =>
         exists before after,
           voices = before ++ v :: after
           /\ mentions_th (lang v)
           /\ Forall (fun w => ~ mentions_th (lang w)) before
     | None => Forall (fun w => ~ mentions_th (lang w)) voices
     end.
Proof.
  split; [reflexivity|]. unfold fallbackToWebSpeech. cbn [utterance_voice].
  induction voices as [|w voices IH]; cbn [find]; [constructor|].
  destruct (includes (lang w) (lit "th")) eqn:Hw.
  - exists [], voices. split; [reflexivity|]. split; [|constructor].
    now apply includes_spec.
  - assert (Hn : ~ mentions_th (lang w)).
    { intros H. apply includes_spec in H. congruence. }
    destruct (find _ voices) as [v|]; cbv beta iota in IH |- *.
    + destruct IH as (before & after & -> & Hv & Hb).
      exists (w :: before), after. split; [reflexivity|].
      split; [assumption | now constructor].
    + now constructor.
Qed.

Example fallback_voice_samples :
  utterance_voice
    (fallbackToWebSpeech [mkVoice 0 (lit "en-US"); mkVoice 1 (lit "th-TH");
                          mkVoice 2 (lit "th")] (lit "x"))
  = Some (mkVoice 1 (lit "th-TH"))
  /\ utterance_voice
       (fallbackToWebSpeech [mkVoice 0 (lit "en-US");
                             mkVoice 1 (lit "am-Ethi")] (lit "x"))
     = Some (mkVoice 1 (lit "am-Ethi"))
  /\ utterance_voice
       (fallbackToWebSpeech [mkVoice 0 (lit "en-US")] (lit "x"))
     = None.
Proof. repeat split. Qed.

(* ================================================================== *)
(** ** Greedy chunks *)
(* ================================================================== *)

Lemma adjacent_snoc {A : Type} (P : A -> A -> Prop) (l : list A) (d : A) :
  adjacent P l -> (forall pre c, l = pre ++ [c] -> P c d) ->
  adjacent P (l ++ [d]).
Proof.
  induction l as [|c l IH]; intros Hadj Hlast; [exact I|].
  destruct l as [|c2 l].
  - simpl. split; [|exact I]. now apply (Hlast []).
  - change ((c :: c2 :: l) ++ [d]) with (c :: (c2 :: l) ++ [d]).
    destruct Hadj as [Hc Hadj]. simpl. split; [exact Hc|].
    apply IH; [exact Hadj|].
    intros pre c' E. apply (Hlast (c :: pre)). simpl. now rewrite E.
Qed.

Lemma first_word_ws (s : jsstring) : starts_ws s = true -> first_word s = [].
Proof.
  intros H. unfold first_word.
  now destruct (split_ws_starts s H) as (ws & ->).
Qed.

Lemma first_word_cons (x : code_unit) (s : jsstring) :
  is_ws x = false -> first_word (x :: s) = x :: first_word s.
Proof.
  intros Hx. unfold first_word. simpl. rewrite Hx.
  pose proof (split_ws_not_nil s). now destruct (split_ws s).
Qed.

(** Whitespace ends the first word. *)
Lemma first_word_app_ws (a b : jsstring) (c : code_unit) :
  is_ws c = true -> first_word (a ++ c :: b) = first_word a.
Proof.
  intros Hc. induction a as [|x a IH].
  - simpl app. now rewrite first_word_ws by (simpl; exact Hc).
  - simpl app. destruct (is_ws x) eqn:Hx.
    + now rewrite !first_word_ws by (simpl; exact Hx).
    + now rewrite !first_word_cons, IH by exact Hx.
Qed.

Lemma first_word_ws_free (w : jsstring) : ws_free w -> first_word w = w.
Proof.
  induction 1 as [|x w Hx Hw IH]; [reflexivity|].
  now rewrite first_word_cons, IH.
Qed.

Section Greedy.

Variable maxLength : Z.

Lemma chunk_step_greedy (st : chunker_state) (w : jsstring) :
  proper_word w -> greedy_inv maxLength st ->
  greedy_inv maxLength (chunk_step maxLength st w).
Proof.
  intros Hw (Hjoin & Hadj & Hnil & Hlast).
  destruct (chunk_step_join maxLength st w Hw Hjoin) as [Hjoin' _].
  split; [exact Hjoin'|]. clear Hjoin'.
  destruct st as [chunks cur]. destruct Hjoin as [_ Hedge].
  unfold chunk_step in *. cbn [fst snd] in *.
  destruct Hw as [Hne Hfree].
  destruct (len (cur ++ SP :: w) >? maxLength)%Z eqn:Hgt;
    destruct (truthy cur) eqn:Ht; cbn [andb fst snd].
  - (* the running chunk is closed and [w] opens the next one *)
    rewrite (trim_clean _ Hedge).
    split; [now apply adjacent_snoc|]. split; [congruence|].
    intros pre c E. apply app_inj_tail in E as [_ <-].
    unfold would_overflow. rewrite (first_word_ws_free _ Hfree).
    rewrite Z.gtb_ltb in Hgt. apply Z.ltb_lt in Hgt.
    rewrite len_app, len_cons in Hgt. lia.
  - apply truthy_false in Ht. subst cur. rewrite (Hnil eq_refl) in *.
    split; [exact I|]. split; [congruence|].
    intros pre c E. now destruct pre.
  - (* [w] joins the running chunk, whose first word stays *)
    split; [exact Hadj|]. split.
    + intros E. destruct cur; discriminate.
    + intros pre c E. unfold would_overflow.
      rewrite first_word_app_ws by reflexivity. now apply (Hlast pre).
  - apply truthy_false in Ht. subst cur. rewrite (Hnil eq_refl) in *.
    split; [exact I|]. split; [congruence|].
    intros pre c E. now destruct pre.
Qed.

Lemma fold_chunk_step_greedy (mid : list jsstring) :
  Forall proper_word mid ->
  forall st, greedy_inv maxLength st ->
             greedy_inv maxLength (fold_left (chunk_step maxLength) mid st).
Proof.
  induction 1 as [|w mid Hw Hmid IH]; intros st Hst; [exact Hst|].
  cbn [fold_left]. apply IH. now apply chunk_step_greedy.
Qed.

Lemma chunk_finish_greedy (st : chunker_state) :
  greedy_inv maxLength st ->
  adjacent (would_overflow maxLength) (chunk_finish st).
Proof.
  intros ([_ Hedge] & Hadj & _ & Hlast). destruct st as [chunks cur].
  unfold chunk_finish. cbn [fst snd] in *.
  destruct (truthy cur); [|exact Hadj].
  rewrite (trim_clean _ Hedge). now apply adjacent_snoc.
Qed.

End Greedy.

(** X20.  The chunker packs greedily.  Of any two neighbouring chunks, the
    first one, a space and the first word of the second are together
    longer than [maxLength]: a chunk is closed only when the next word
    would not fit into it. *)
Theorem chunks_are_greedy (s : jsstring) (maxLength : Z) :
  adjacent (would_overflow maxLength) (splitTextIntoChunks s maxLength).
Proof.
  unfold splitTextIntoChunks. destruct (len s <=? maxLength)%Z; [exact I|].
  destruct (split_ws_shape s) as (pre & mid & post & E & Hpre & Hpost & Hmid).
  cbv zeta. rewrite E, !fold_left_app.
  assert (E0 : fold_left (chunk_step maxLength) pre ([], []) = ([], [])).
  { destruct Hpre as [-> | ->]; [reflexivity|].
    cbn [fold_left]. apply chunk_step_nil_nil. }
  rewrite E0.
  assert (H0 : greedy_inv maxLength ([], [])).
  { repeat split; try constructor. intros pre' c H. now destruct pre'. }
  pose proof (fold_chunk_step_greedy maxLength mid Hmid _ H0) as Hg.
  destruct Hpost as [-> | ->]; cbn [fold_left].
  - now apply chunk_finish_greedy.
  - rewrite chunk_finish_step_nil by apply Hg. now apply chunk_finish_greedy.
Qed.

Example greedy_sample :
  splitTextIntoChunks (lit "aa bb cc dd e") 5
  = [lit "aa bb"; lit "cc dd"; lit "e"]
  /\ first_word (lit "cc dd") = lit "cc".
Proof. split; reflexivity. Qed.

(* ================================================================== *)
(** ** Runs without failures *)
(* ================================================================== *)

Lemma clean_inv_playNextChunk (thai : jsstring) (spans : list bool)
  (st : state) :
  cycle st = AwaitSpeak \/ cycle st = Finished ->
  chunks st = splitTextIntoChunks thai 200 ->
  tts st = None ->
  fallbacks st = 0 ->
  List.length (thaiWords st) = List.length spans ->
  resolved st = false ->
  forall st', playNextChunk st = Some st' -> clean_inv thai spans st'.
Proof.
  intros Hc Hch Htts Hfb Hlen Hres st' Hp.
  destruct (playNextChunk_cases st)
    as [[Hle E] | [(Hlt & _ & a & E) | (_ & _ & E)]];
    rewrite E in Hp; [| |discriminate]; injection Hp as <-; clear E.
  - set (st' := set_thaiWords _ st).
    destruct (resolve_frame st') as (_ & _ & E3 & E4 & E5 & E6).
    destruct (resolve_flags st') as (_ & R2 & R3 & _).
    assert (Hc' : cycle (resolve st') = Finished) by (apply R3; exact Hc).
    unfold clean_inv. rewrite R2, E3, E4, E5, E6, Hc'.
    subst st'. cbn [thaiWords set_thaiWords fallbacks chunks chunkIndex tts].
    rewrite clear_all_spans, repeat_length, Hlen.
    split; [exact Hfb|]. split; [reflexivity|].
    split; [intros [H | H]; discriminate|].
    intros _. split; [exact Htts|]. right. now repeat split.
  - unfold clean_inv. simpl. rewrite Hres.
    split; [exact Hfb|]. split; [exact Hlen|].
    split; [intros [H | H]; destruct Hc as [Hc | Hc]; congruence|].
    discriminate.
Qed.

(** A turn of the event loop that is not a failure notification keeps the
    invariant of clean runs. *)
Lemma clean_inv_handle (thai : jsstring) (spans : list bool) (e : event)
  (st : state) :
  is_failure e = false ->
  order_inv thai st -> clean_inv thai spans st ->
  clean_inv thai spans (handle e st).
Proof.
  intros He Hord Hclean.
  pose proof Hord as (Hidle & Hthai & Hch & _ & _ & Hearly & Hfin).
  pose proof Hclean as (Hfb & Hlen & Hspans & Hres).
  destruct e; try discriminate He; simpl.
  - (* recorded audio ended *)
    destruct (cycle st) eqn:Hc; try exact Hclean.
    destruct (Hearly (or_introl eq_refl)) as (_ & _ & _ & _ & Hr & _).
    unfold clean_inv. simpl. rewrite Hr.
    split; [exact Hfb|]. split; [exact Hlen|].
    split; [intros _; apply Hspans; now left | discriminate].
  - (* recorded audio failed *)
    destruct (cycle st) eqn:Hc; try exact Hclean.
    destruct (Hearly (or_introl eq_refl)) as (_ & _ & _ & _ & Hr & _).
    unfold clean_inv. simpl. rewrite Hr.
    split; [exact Hfb|]. split; [exact Hlen|].
    split; [intros _; apply Hspans; now left | discriminate].
  - (* the timer *)
    destruct (cycle st) eqn:Hc; try exact Hclean.
    destruct (Hearly (or_intror eq_refl)) as (Htts & Hch0 & _ & _ & Hr & _).
    specialize (Hspans (or_intror eq_refl)).
    unfold speakThaiWithHighlighting. cbn [currentThai set_cycle].
    rewrite Hthai.
    destruct (negb (truthy thai) || streq thai (lit "Translation failed"))
      eqn:Hd.
    + unfold clean_inv, resolve. simpl.
      split; [exact Hfb|]. split; [exact Hlen|].
      split; [intros [H | H]; discriminate|].
      intros _. split; [exact Htts|]. left.
      split; [|now split]. apply orb_true_iff in Hd as [Hd | Hd].
      * left. apply negb_true_iff in Hd. now apply truthy_false.
      * right. now apply streq_eq.
    + cbv zeta. set (st0 := set_chunkIndex 0 _).
      destruct (playNextChunk st0) as [st'|] eqn:Hp.
      * apply (clean_inv_playNextChunk thai spans st0); simpl; auto.
      * destruct (reject_frame st0) as (_ & _ & E3 & E4 & E5 & E6).
        destruct (reject_flags st0) as (_ & R2 & R3).
        unfold clean_inv.
        rewrite E3, E4, E5, E6, R2, R3, (reject_cycle st0) by now left.
        subst st0. simpl. rewrite Hr.
        split; [exact Hfb|]. split; [exact Hlen|].
        split; [intros [H | H]; discriminate | discriminate].
  - (* play: the audio is registered, so the promise has not resolved *)
    destruct (tts st) as [a|] eqn:Ht; [|exact Hclean].
    destruct (order_inv_live _ _ _ Hord Ht) as (Hc & _ & Hne & _).
    assert (Hr : resolved st = false).
    { destruct (resolved st) eqn:Hr; [|reflexivity].
      destruct (Hres eq_refl) as [H _]. congruence. }
    unfold clean_inv. simpl. rewrite Hr, forEach_length.
    split; [exact Hfb|]. split; [exact Hlen|].
    split; [intros H; now destruct Hne | discriminate].
  - (* ended *)
    destruct (tts st) as [a|] eqn:Ht; [|exact Hclean].
    destruct (order_inv_live _ _ _ Hord Ht) as (Hc & Hsp & Hne & _).
    assert (Hr : resolved st = false).
    { destruct (resolved st) eqn:Hr; [|reflexivity].
      destruct (Hres eq_refl) as [H _]. congruence. }
    unfold onended. cbv zeta. set (st0 := set_chunkIndex _ _).
    destruct (playNextChunk st0) as [st'|] eqn:Hp.
    + apply (clean_inv_playNextChunk thai spans st0); simpl; auto.
    + unfold clean_inv. subst st0. simpl. rewrite Hr.
      split; [exact Hfb|]. split; [exact Hlen|].
      split; [intros H; now destruct Hne | discriminate].
  - (* the fallback utterance is over: there is none *)
    rewrite Hfb. exact Hclean.
Qed.

Lemma clean_inv_run (thai : jsstring) (spans : list bool)
  (evs : list event) :
  (forall e, In e evs -> is_failure e = false) ->
  forall st, order_inv thai st -> clean_inv thai spans st ->
             order_inv thai (run evs st) /\ clean_inv thai spans (run evs st).
Proof.
  induction evs as [|e evs IH]; intros Hev st Hord Hclean; [now split|].
  apply IH.
  - intros e' H. apply Hev. now right.
  - now apply order_inv_handle.
  - apply clean_inv_handle; auto. apply Hev. now left.
Qed.

(** X21.  In a run in which no chunk audio reports a failure, the
    sequencer's promise does not resolve early.  Once it has resolved,
    either the translation was empty or the text of a failed translation,
    nothing was requested and the spans are as they were; or every chunk
    of the translation has been requested, in order, and no span is
    highlighted. *)
Theorem completion_means_all_chunks (b : blob) (thai : jsstring)
  (spans : list bool) (evs : list event) :
  (forall e, In e evs -> is_failure e = false) ->
  let st := run evs (playbackCycle (ready b thai spans)) in
  resolved st = true ->
  (unspeakable thai /\ tts_requests (log st) = [] /\ thaiWords st = spans)
  \/ (tts_requests (log st) = splitTextIntoChunks thai 200
      /\ thaiWords st = repeat false (List.length spans)).
Proof.
  intros Hev st Hres.
  assert (H0 : clean_inv thai spans (playbackCycle (ready b thai spans))).
  { unfold clean_inv. simpl. repeat split; auto; discriminate. }
  destruct (clean_inv_run thai spans evs Hev _
              (order_inv_start b thai spans) H0) as (Hord & Hclean).
  fold st in Hord, Hclean.
  destruct Hord as (_ & _ & _ & Hreq & _).
  destruct Hclean as (_ & _ & _ & Hdone).
  destruct (Hdone Hres) as (Htts & [(Hu & Hch & Hw) | (Hch & Hle & Hw)]).
  - left. split; [exact Hu|]. split; [|exact Hw].
    rewrite Hreq, Hch. apply firstn_nil.
  - right. split; [|exact Hw].
    rewrite Hreq. unfold live. rewrite Htts. simpl b2n.
    rewrite Nat.add_0_r, firstn_all2 by exact Hle. exact Hch.
Qed.

Lemma completion_means_all_chunks_witness :
  (forall e, In e [EvBlobEnded; EvTimeout; EvPlay; EvEnded] ->
             is_failure e = false)
  /\ resolved (run [EvBlobEnded; EvTimeout; EvPlay; EvEnded]
                   (playbackCycle (ready 7 (lit "a b") [true; false])))
     = true
  /\ thaiWords (run [EvBlobEnded; EvTimeout; EvPlay; EvEnded]
                    (playbackCycle (ready 7 (lit "a b") [true; false])))
     = [false; false].
Proof.
  assert (H1 : forall e, In e [EvBlobEnded; EvTimeout; EvPlay; EvEnded] ->
                         is_failure e = false).
  { intros e [<- | [<- | [<- | [<- | []]]]]; reflexivity. }
  assert (H2 : resolved (run [EvBlobEnded; EvTimeout; EvPlay; EvEnded]
                             (playbackCycle
                                (ready 7 (lit "a b") [true; false])))
               = true) by reflexivity.
  split; [exact H1|]. split; [exact H2|].
  destruct (completion_means_all_chunks 7 (lit "a b") [true; false] _ H1 H2)
    as [(_ & _ & Hw) | (_ & Hw)]; [|exact Hw].
  reflexivity.
Defined.
